(** * fi_nomad: model-free kernel utilities and kernel return types

    A shallow embedding of

    - [src/fi_nomad/util/model_free_util.py]
      ([construct_utility], [apply_momentum], [reconstruct_X_from_L]) and
    - [src/fi_nomad/types/kernelReturnTypes.py]
      (the dataclasses returned by the decomposition kernels).

    The matrices of the program are NumPy arrays of [float64].  Cells are
    modelled as IEEE-754 binary64 values through the Standard Library's
    [SpecFloat] (precision 53, maximal exponent 1024, round to nearest even),
    so that signed zeros, infinities, NaN, rounding and overflow are those
    of the program.  Arrays are two-dimensional, carry their shape, and the
    NumPy primitives the source calls ([>], [<], [np.select], [np.maximum],
    [+], [-], [*]) follow NumPy's broadcasting rules; a failed broadcast is a
    raised [ValueError]. *)

From Stdlib Require Import String.
From Stdlib Require Import List ZArith Bool Arith Lia SpecFloat.
Import ListNotations.
Local Open Scope string_scope.
Local Open Scope nat_scope.

Set Implicit Arguments.

(** ** Python call outcomes *)

Module Py.

(** The exceptions the modelled code can raise; [msg] is the leading part
    of the message (NumPy appends the offending shapes). *)
Inductive exn : Type :=
| ValueError (msg : string).

(** A call either returns a value or raises. *)
Inductive result (A : Type) : Type :=
| Ok (a : A)
| Raise (e : exn).

Arguments Ok {A} a.
Arguments Raise {A} e.

Definition bind {A B : Type} (r : result A) (k : A -> result B) : result B :=
  match r with
  | Ok a => k a
  | Raise e => Raise e
  end.

Definition returns {A : Type} (r : result A) : bool :=
  match r with Ok _ => true | Raise _ => false end.

Definition raises {A : Type} (r : result A) : bool :=
  match r with Ok _ => false | Raise _ => true end.

End Py.

Import Py.

Notation "x <- c1 ;; c2" := (Py.bind c1 (fun x => c2))
  (at level 61, c1 at next level, right associativity).

(** ** IEEE-754 binary64, the cell type of [FloatArrayType] *)

Module Float64.

Definition prec : Z := 53.
Definition emax : Z := 1024.

Definition float64 : Type := spec_float.

(** A [spec_float] is a float64 when its mantissa and exponent are
    canonical for the format. *)
Definition valid (x : float64) : bool := valid_binary prec emax x.

(** the literal [0.0] (also what the integer literal [0] converts to) *)
Definition zero : float64 := S754_zero false.
(** the literal [1.0] *)
Definition one : float64 := S754_finite false 4503599627370496 (-52).
(** the literal [2.0] *)
Definition two : float64 := S754_finite false 4503599627370496 (-51).

Definition add (x y : float64) : float64 := SFadd prec emax x y.
Definition sub (x y : float64) : float64 := SFsub prec emax x y.
Definition mul (x y : float64) : float64 := SFmul prec emax x y.

(** [lt x y] is [x < y], [gt x y] is [x > y], and so on; every comparison
    with a NaN operand is [false], as in IEEE-754. *)
Definition lt (x y : float64) : bool := SFltb x y.
Definition gt (x y : float64) : bool := SFltb y x.
Definition le (x y : float64) : bool := SFleb x y.
Definition ge (x y : float64) : bool := SFleb y x.
(** [eqb x y] is [x == y]: numerical equality, [0.0 == -0.0], NaN differs
    from everything. *)
Definition eqb (x y : float64) : bool := SFeqb x y.

(** The exact value of a finite [x] multiplied by [2^k], when that is an
    integer. *)
Definition scaled_value (k : Z) (x : float64) : option Z :=
  match x with
  | S754_zero _ => Some 0%Z
  | S754_finite s m e =>
      if (0 <=? e + k)%Z
      then Some (cond_Zopp s (Zpos m) * 2 ^ (e + k))%Z
      else None
  | _ => None
  end.

Definition isnan (x : float64) : bool :=
  match x with S754_nan => true | _ => false end.

Definition iszero (x : float64) : bool :=
  match x with S754_zero _ => true | _ => false end.

Definition isfinite (x : float64) : bool :=
  match x with
  | S754_nan | S754_infinity _ => false
  | S754_zero _ | S754_finite _ _ _ => true
  end.

(** Python's builtin [min(a, b)] and [max(a, b)] on two numbers: the first
    argument is kept unless the second is strictly smaller (larger). *)
Definition py_min (a b : float64) : float64 := if lt b a then b else a.
Definition py_max (a b : float64) : float64 := if gt b a then b else a.

End Float64.

Import Float64.

(** ** Two-dimensional NumPy arrays *)

Module Numpy.

(** An array carries its shape [(nrows, ncols)] and its cells, row by
    row. *)
Record ndarray (A : Type) : Type := mk_ndarray {
  nrows : nat;
  ncols : nat;
  rows : list (list A)
}.

Definition shape {A : Type} (a : ndarray A) : nat * nat := (nrows a, ncols a).

(** The cells agree with the shape. *)
Definition wf {A : Type} (a : ndarray A) : bool :=
  (length (rows a) =? nrows a) &&
  forallb (fun r => length r =? ncols a) (rows a).

(** [a[i, j]]; [None] stands for the [IndexError] of an index out of
    range. *)
Definition getitem {A : Type} (a : ndarray A) (i j : nat) : option A :=
  match nth_error (rows a) i with
  | Some r => nth_error r j
  | None => None
  end.

(** Every cell satisfies [p]. *)
Definition all_cells {A : Type} (p : A -> bool) (a : ndarray A) : bool :=
  forallb (forallb p) (rows a).

(** *** Broadcasting *)

(** One axis: equal extents, or one of them is 1. *)
Definition broadcast_dim (d1 d2 : nat) : option nat :=
  if d1 =? d2 then Some d1
  else if d1 =? 1 then Some d2
  else if d2 =? 1 then Some d1
  else None.

Definition broadcast_shapes (s1 s2 : nat * nat) : option (nat * nat) :=
  match broadcast_dim (fst s1) (fst s2), broadcast_dim (snd s1) (snd s2) with
  | Some m, Some n => Some (m, n)
  | _, _ => None
  end.

(** Stretch an axis of extent [len] to [target]: unchanged when the
    extents agree, otherwise (extent 1) its only element is repeated. *)
Definition stretch {A : Type} (len target : nat) (l : list A) : list A :=
  if len =? target then l
  else match l with
       | x :: _ => repeat x target
       | [] => []
       end.

(** [np.broadcast_to(a, s)], for a shape [s] that [a] broadcasts to. *)
Definition broadcast_to {A : Type} (s : nat * nat) (a : ndarray A) : ndarray A :=
  mk_ndarray (fst s) (snd s)
    (stretch (nrows a) (fst s) (map (stretch (ncols a) (snd s)) (rows a))).

Fixpoint zip_with {A B C : Type} (f : A -> B -> C) (l1 : list A) (l2 : list B)
  : list C :=
  match l1, l2 with
  | x :: l1', y :: l2' => f x y :: zip_with f l1' l2'
  | _, _ => []
  end.

(** The common shape of a list of arrays, [None] when they do not
    broadcast together. *)
Fixpoint common_shape {A : Type} (s : nat * nat) (l : list (ndarray A))
  : option (nat * nat) :=
  match l with
  | [] => Some s
  | a :: l' =>
      match broadcast_shapes s (shape a) with
      | Some s' => common_shape s' l'
      | None => None
      end
  end.

(** [np.broadcast_arrays] applied to the arrays of [l]. *)
Definition broadcast_arrays {A : Type} (l : list (ndarray A))
  : result (list (ndarray A)) :=
  match l with
  | [] => Ok []
  | a :: l' =>
      match common_shape (shape a) l' with
      | Some s => Ok (map (broadcast_to s) l)
      | None =>
          Raise (ValueError
            "shape mismatch: objects cannot be broadcast to a single shape")
      end
  end.

(** *** Universal functions *)

(** A unary ufunc, and a binary ufunc with a scalar operand: the scalar
    broadcasts to any shape. *)
Definition map_cells {A B : Type} (f : A -> B) (a : ndarray A) : ndarray B :=
  mk_ndarray (nrows a) (ncols a) (map (map f) (rows a)).

(** A binary ufunc on two arrays. *)
Definition ufunc2 {A B C : Type} (f : A -> B -> C) (a : ndarray A) (b : ndarray B)
  : result (ndarray C) :=
  match broadcast_shapes (shape a) (shape b) with
  | Some s =>
      Ok (mk_ndarray (fst s) (snd s)
            (zip_with (zip_with f) (rows (broadcast_to s a))
                                   (rows (broadcast_to s b))))
  | None =>
      Raise (ValueError "operands could not be broadcast together")
  end.

(** [a > c] and [a < c] for a scalar [c] *)
Definition greater_scalar (a : ndarray float64) (c : float64) : ndarray bool :=
  map_cells (fun x => gt x c) a.
Definition less_scalar (a : ndarray float64) (c : float64) : ndarray bool :=
  map_cells (fun x => lt x c) a.

(** [a - b], [a + b] on arrays, [c * a] for a scalar [c] *)
Definition subtract (a b : ndarray float64) : result (ndarray float64) :=
  ufunc2 sub a b.
Definition add (a b : ndarray float64) : result (ndarray float64) :=
  ufunc2 Float64.add a b.
Definition multiply_scalar (c : float64) (a : ndarray float64) : ndarray float64 :=
  map_cells (fun x => mul c x) a.

(** The inner loop of [np.maximum]: the first operand when it is NaN or
    greater than the second, else the second.  A NaN operand is propagated,
    and of two equal operands the second is returned, so that of two zeros
    the second is kept: [np.maximum(0.0, -0.0)] is [-0.0]. *)
Definition maximum_cell (x y : float64) : float64 :=
  if isnan x || gt x y then x else y.

(** [np.maximum(c, a)] for a scalar [c] *)
Definition maximum_scalar (c : float64) (a : ndarray float64) : ndarray float64 :=
  map_cells (fun y => maximum_cell c y) a.

(** *** [np.select] *)

(** [np.full(s, v)] *)
Definition full {A : Type} (s : nat * nat) (v : A) : ndarray A :=
  mk_ndarray (fst s) (snd s) (repeat (repeat v (snd s)) (fst s)).

(** [np.copyto(dst, src, where=mask)]: [src] and [mask] broadcast to the
    shape of [dst]. *)
Definition copyto {A : Type} (dst src : ndarray A) (mask : ndarray bool)
  : ndarray A :=
  let s := shape dst in
  mk_ndarray (nrows dst) (ncols dst)
    (zip_with (zip_with (fun dv (p : A * bool) =>
                           if snd p then fst p else dv))
       (rows dst)
       (zip_with (zip_with (fun (v : A) (m : bool) => (v, m)))
                 (rows (broadcast_to s src))
                 (rows (broadcast_to s mask)))).

(** [np.select(condlist, choicelist, default)] with a scalar default:
    conditions are broadcast together, choices are broadcast together,
    the result starts as [np.full] of the default and the choices are
    burnt onto it in reverse order, so that the first condition that
    holds wins. *)
Definition select (condlist : list (ndarray bool))
           (choicelist : list (ndarray float64)) (default : float64)
  : result (ndarray float64) :=
  if negb (length condlist =? length choicelist) then
    Raise (ValueError "list of cases must be same length as list of conditions")
  else if length condlist =? 0 then
    Raise (ValueError "select with an empty condition list is not possible")
  else
    conds <- broadcast_arrays condlist ;;
    choices <- broadcast_arrays choicelist ;;
    match conds, choices with
    | c0 :: _, ch0 :: _ =>
        match broadcast_shapes (shape c0) (shape ch0) with
        | Some s =>
            Ok (fold_left (fun res (p : ndarray float64 * ndarray bool) =>
                             copyto res (fst p) (snd p))
                          (rev (combine choices conds))
                          (full s default))
        | None =>
            Raise (ValueError
              "shape mismatch: objects cannot be broadcast to a single shape")
        end
    | _, _ => Raise (ValueError "select with an empty condition list is not possible")
    end.

(** The index read in an operand along an axis on which the result has
    index [i]: an axis of extent 1 is read at 0 (NumPy gives it stride 0),
    any other axis at [i]. *)
Definition broadcast_index (extent i : nat) : nat :=
  if extent =? 1 then 0 else i.

End Numpy.

Import Numpy.

(** ** [fi_nomad/types] *)

Module types.

(** Modelled from the spec: [FloatArrayType] is imported from
    [fi_nomad.types], whose declaration is not among the sources.  The data
    model of the specification has it as a dense 2D array of
    double-precision floats, rows by columns. *)
Definition FloatArrayType : Type := ndarray float64.

End types.

Import types.

(** ** [fi_nomad/util/model_free_util.py] *)

Module model_free_util.

(** [[
    conditions = [base_matrix > 0, low_rank_matrix < 0]
    choices = [base_matrix, low_rank_matrix]
    utility_matrix = np.select(conditions, choices, 0)
    return utility_matrix
    ]] *)
Definition construct_utility (low_rank_matrix base_matrix : FloatArrayType)
  : result FloatArrayType :=
  let conditions :=
    [greater_scalar base_matrix zero; less_scalar low_rank_matrix zero] in
  let choices := [base_matrix; low_rank_matrix] in
  utility_matrix <- select conditions choices zero ;;
  Ok utility_matrix.

(** [[
    return current_X + beta * (current_X - previous_X)
    ]] *)
Definition apply_momentum (current_X previous_X : FloatArrayType)
           (beta : float64) : result FloatArrayType :=
  diff <- subtract current_X previous_X ;;
  Numpy.add current_X (multiply_scalar beta diff).

(** [[
    return np.maximum(0.0, low_rank_candidate_L)
    ]] *)
Definition reconstruct_X_from_L (low_rank_candidate_L : FloatArrayType)
  : FloatArrayType :=
  maximum_scalar zero low_rank_candidate_L.

(** The rule of the docstring of [construct_utility], cell by cell:
    positive elements of [X] are copied, then negative elements of [L]
    where nothing was set, and the remaining elements stay 0. *)
Definition utility_cell (l x : float64) : float64 :=
  if gt x zero then x else if lt l zero then l else zero.

End model_free_util.

Import model_free_util.

(** ** [fi_nomad/types/kernelReturnTypes.py] *)

Module kernelReturnTypes.

(** [SolutionType = FloatArrayType] *)
Definition SolutionType : Type := FloatArrayType.

(** The three dataclasses deriving from [KernelReturnBase]; each inherits
    the [reconstruction] field and none defines [__post_init__]. *)
Record BaseModelFreeKernelReturnType : Type := {
  bmf_reconstruction : SolutionType
}.

Record SingleVarianceGaussianModelKernelReturnType : Type := {
  sv_reconstruction : SolutionType;
  sv_variance : float64
}.

(** The per-row variance is annotated [FloatArrayType] as well; it is a
    one-dimensional array (one variance per row), a list of cells. *)
Record RowwiseVarianceGaussianModelKernelReturnType : Type := {
  rv_reconstruction : SolutionType;
  rv_variance : list float64
}.

(** [KernelReturnDataType], the union of the three. *)
Inductive KernelReturnDataType : Type :=
| BaseModelFree (d : BaseModelFreeKernelReturnType)
| SingleVarianceGaussianModel (d : SingleVarianceGaussianModelKernelReturnType)
| RowwiseVarianceGaussianModel (d : RowwiseVarianceGaussianModelKernelReturnType).

Record KernelReturnType : Type := {
  summary : string;
  data : KernelReturnDataType
}.

(** The [__init__] that [@dataclass] generates stores its arguments in the
    fields, in declaration order, and does nothing else. *)
Definition BaseModelFreeKernelReturnType_init (reconstruction : SolutionType)
  : result BaseModelFreeKernelReturnType :=
  Ok {| bmf_reconstruction := reconstruction |}.

Definition SingleVarianceGaussianModelKernelReturnType_init
           (reconstruction : SolutionType) (variance : float64)
  : result SingleVarianceGaussianModelKernelReturnType :=
  Ok {| sv_reconstruction := reconstruction; sv_variance := variance |}.

Definition RowwiseVarianceGaussianModelKernelReturnType_init
           (reconstruction : SolutionType) (variance : list float64)
  : result RowwiseVarianceGaussianModelKernelReturnType :=
  Ok {| rv_reconstruction := reconstruction; rv_variance := variance |}.

Definition KernelReturnType_init (summary : string) (data : KernelReturnDataType)
  : result KernelReturnType :=
  Ok {| summary := summary; data := data |}.

End kernelReturnTypes.

Import kernelReturnTypes.

(** ** Literals used in the examples *)

Module Lit.
(** [2^52], the mantissa of a power of two *)
Definition p52 : positive := 4503599627370496.
Definition f_1 : float64 := one.
Definition f_2 : float64 := two.
Definition f_0_5 : float64 := S754_finite false p52 (-53).
Definition f_2_5 : float64 := S754_finite false 5629499534213120 (-51).
Definition f_m1 : float64 := S754_finite true p52 (-52).
Definition f_0_2 : float64 := S754_finite false 7205759403792794 (-55).
Definition f_m0_3 : float64 := S754_finite true 5404319552844595 (-54).
Definition f_1_9 : float64 := S754_finite false 8556839292003942 (-52).
(** the largest finite float64, [1.7976931348623157e308] *)
Definition f_max : float64 := S754_finite false 9007199254740991 971.
Definition f_mmax : float64 := S754_finite true 9007199254740991 971.
Definition neg_zero : float64 := S754_zero true.
Definition mat (m n : nat) (r : list (list float64)) : ndarray float64 :=
  mk_ndarray m n r.
(** [1.0000000000000002], the successor of [1.0] *)
Definition f_1_next : float64 := S754_finite false 4503599627370497 (-52).
(** [-1.6653345369377348e-16], that is [-3 * 2^-54] *)
Definition f_m3_54 : float64 := S754_finite true 6755399441055744 (-105).
(** [2.0000000000000004] and [2.000000000000001] *)
Definition f_2_next : float64 := S754_finite false 4503599627370497 (-51).
Definition f_2_next2 : float64 := S754_finite false 4503599627370498 (-51).
(** the matrices of the end-to-end scenario:
    [X = [[1, 0], [0, 2]]], [L = [[0.5, -0.3], [0.2, 1.9]]] *)
Definition X0 : ndarray float64 := mat 2 2 [[f_1; zero]; [zero; f_2]].
Definition L0 : ndarray float64 := mat 2 2 [[f_0_5; f_m0_3]; [f_0_2; f_1_9]].
End Lit.

(** * Properties *)

Unset Implicit Arguments.

(** ** Cells of zipped and mapped rows *)

Lemma nth_error_zip_with {A B C : Type} (f : A -> B -> C) (l1 : list A) (l2 : list B) (i : nat) :
  nth_error (zip_with f l1 l2) i =
  match nth_error l1 i, nth_error l2 i with
  | Some x, Some y => Some (f x y)
  | _, _ => None
  end.
Proof.
  revert l2 i.
  induction l1 as [|x l1 IH]; intros [|y l2] [|i]; simpl; try reflexivity.
  - destruct (nth_error l1 i); reflexivity.
  - apply IH.
Qed.

Section Cells.

Context {A B C : Type}.

Lemma getitem_zip_with (f : A -> B -> C) (m n : nat)
      (R1 : list (list A)) (R2 : list (list B)) (i j : nat) :
  getitem (mk_ndarray m n (zip_with (zip_with f) R1 R2)) i j =
  match getitem (mk_ndarray m n R1) i j, getitem (mk_ndarray m n R2) i j with
  | Some x, Some y => Some (f x y)
  | _, _ => None
  end.
Proof.
  unfold getitem; cbn [rows].
  rewrite nth_error_zip_with.
  destruct (nth_error R1 i) as [r1|], (nth_error R2 i) as [r2|];
    try reflexivity.
  - apply nth_error_zip_with.
  - destruct (nth_error r1 j); reflexivity.
Qed.

Lemma getitem_map_cells (f : A -> B) (a : ndarray A) (i j : nat) :
  getitem (map_cells f a) i j = option_map f (getitem a i j).
Proof.
  unfold getitem, map_cells; cbn [rows].
  rewrite nth_error_map.
  destruct (nth_error (rows a) i) as [r|]; cbn [option_map]; [|reflexivity].
  apply nth_error_map.
Qed.

Lemma getitem_rows (a : ndarray A) (m n : nat) (i j : nat) :
  getitem (mk_ndarray m n (rows a)) i j = getitem a i j.
Proof. reflexivity. Qed.

End Cells.

Lemma stretch_same {A : Type} (n : nat) (l : list A) : stretch n n l = l.
Proof. unfold stretch; rewrite Nat.eqb_refl; reflexivity. Qed.

Section Shapes.

Context {A : Type}.

Lemma wf_length (a : ndarray A) :
  wf a = true ->
  length (rows a) = nrows a /\
  forall i r, nth_error (rows a) i = Some r -> length r = ncols a.
Proof.
  unfold wf; intros H.
  apply andb_true_iff in H; destruct H as [Hr Hc].
  apply Nat.eqb_eq in Hr.
  split; [exact Hr|].
  intros i r Hi.
  rewrite forallb_forall in Hc.
  apply Nat.eqb_eq, Hc.
  eapply nth_error_In; eassumption.
Qed.

(** A well-formed array has a cell at every index within its shape. *)
Lemma getitem_in_range (a : ndarray A) (i j : nat) :
  wf a = true -> i < nrows a -> j < ncols a ->
  exists x, getitem a i j = Some x.
Proof.
  intros Hwf Hi Hj.
  destruct (wf_length a Hwf) as [Hr Hc].
  unfold getitem.
  destruct (nth_error (rows a) i) as [r|] eqn:Er.
  - specialize (Hc i r Er).
    destruct (nth_error r j) as [x|] eqn:Ex; [eauto|].
    apply nth_error_None in Ex; lia.
  - apply nth_error_None in Er; lia.
Qed.

Lemma getitem_all_cells (p : A -> bool) (a : ndarray A) (i j : nat) (x : A) :
  all_cells p a = true -> getitem a i j = Some x -> p x = true.
Proof.
  unfold all_cells, getitem; intros Hall Hx.
  destruct (nth_error (rows a) i) as [r|] eqn:Er; [|discriminate].
  rewrite forallb_forall in Hall.
  specialize (Hall r (nth_error_In _ _ Er)).
  rewrite forallb_forall in Hall.
  apply Hall.
  eapply nth_error_In; eassumption.
Qed.

Lemma broadcast_dim_same (d : nat) : broadcast_dim d d = Some d.
Proof. unfold broadcast_dim; rewrite Nat.eqb_refl; reflexivity. Qed.

Lemma broadcast_shapes_same (s : nat * nat) : broadcast_shapes s s = Some s.
Proof.
  unfold broadcast_shapes; rewrite !broadcast_dim_same.
  destruct s; reflexivity.
Qed.

Lemma broadcast_dim_comm (d1 d2 : nat) :
  broadcast_dim d1 d2 = broadcast_dim d2 d1.
Proof.
  unfold broadcast_dim.
  destruct (Nat.eqb_spec d1 d2) as [->|Hne].
  - rewrite Nat.eqb_refl; reflexivity.
  - destruct (Nat.eqb_spec d2 d1) as [E|_]; [congruence|].
    destruct (Nat.eqb_spec d1 1) as [E1|_], (Nat.eqb_spec d2 1) as [E2|_];
      try reflexivity.
    congruence.
Qed.

Lemma broadcast_shapes_comm (s1 s2 : nat * nat) :
  broadcast_shapes s1 s2 = broadcast_shapes s2 s1.
Proof.
  unfold broadcast_shapes.
  rewrite (broadcast_dim_comm (fst s1)), (broadcast_dim_comm (snd s1)).
  reflexivity.
Qed.

Lemma broadcast_to_same (a : ndarray A) :
  rows (broadcast_to (shape a) a) = rows a.
Proof.
  unfold broadcast_to, shape; simpl.
  rewrite stretch_same.
  rewrite <- (map_id (rows a)) at 2.
  apply map_ext; intros r; apply stretch_same.
Qed.

Lemma getitem_full (s : nat * nat) (v : A) (i j : nat) :
  i < fst s -> j < snd s -> getitem (full s v) i j = Some v.
Proof.
  intros Hi Hj; unfold getitem, full; simpl.
  rewrite (nth_error_repeat _ Hi).
  apply nth_error_repeat; exact Hj.
Qed.

End Shapes.

(** ** The operations on operands of one shape, and on broadcast operands *)

Section Broadcast.

Context {A : Type}.

Lemma shape_broadcast_to (s : nat * nat) (a : ndarray A) :
  shape (broadcast_to s a) = s.
Proof. destruct s; reflexivity. Qed.

Lemma broadcast_to_shape_id (a : ndarray A) : broadcast_to (shape a) a = a.
Proof.
  generalize (broadcast_to_same a).
  destruct a as [m n r]; unfold broadcast_to, shape; simpl.
  intros ->; reflexivity.
Qed.

Lemma broadcast_dim_left (d1 d2 d : nat) :
  broadcast_dim d1 d2 = Some d -> broadcast_dim d1 d = Some d.
Proof.
  unfold broadcast_dim.
  destruct (Nat.eqb_spec d1 d2) as [->|Hne].
  - intros [= ->]; rewrite Nat.eqb_refl; reflexivity.
  - destruct (Nat.eqb_spec d1 1) as [->|H1].
    + intros [= ->].
      destruct (Nat.eqb_spec 1 d) as [E|_]; [congruence|reflexivity].
    + destruct (Nat.eqb_spec d2 1) as [->|H2]; [|discriminate].
      intros [= ->]; rewrite Nat.eqb_refl; reflexivity.
Qed.

Lemma broadcast_shapes_left (s1 s2 s : nat * nat) :
  broadcast_shapes s1 s2 = Some s -> broadcast_shapes s1 s = Some s.
Proof.
  unfold broadcast_shapes.
  destruct (broadcast_dim (fst s1) (fst s2)) as [m|] eqn:Em; [|discriminate].
  destruct (broadcast_dim (snd s1) (snd s2)) as [n|] eqn:En; [|discriminate].
  intros [= <-]; simpl.
  rewrite (broadcast_dim_left _ _ _ Em), (broadcast_dim_left _ _ _ En).
  reflexivity.
Qed.

Lemma shape_copyto (dst src : ndarray A) (mask : ndarray bool) :
  shape (copyto dst src mask) = shape dst.
Proof. reflexivity. Qed.

End Broadcast.

Lemma shape_map_cells {A B : Type} (f : A -> B) (a : ndarray A) :
  shape (map_cells f a) = shape a.
Proof. reflexivity. Qed.

(** [np.select] as [construct_utility] calls it, on operands that broadcast
    to the shape [s]: the default, overwritten by [low_rank_matrix] where it
    is negative, overwritten by [base_matrix] where it is positive. *)
Lemma construct_utility_broadcast (L X : ndarray float64) (s : nat * nat) :
  broadcast_shapes (shape X) (shape L) = Some s ->
  construct_utility L X =
  Ok (copyto (copyto (full s zero)
                     (broadcast_to s L) (broadcast_to s (less_scalar L zero)))
             (broadcast_to s X) (broadcast_to s (greater_scalar X zero))).
Proof.
  intros Hs.
  unfold construct_utility, select, broadcast_arrays, common_shape.
  cbn [length Nat.eqb negb].
  unfold greater_scalar, less_scalar.
  rewrite !shape_map_cells, Hs.
  cbn [Py.bind map].
  rewrite !shape_broadcast_to, broadcast_shapes_same.
  reflexivity.
Qed.

Lemma construct_utility_mismatch (L X : ndarray float64) :
  broadcast_shapes (shape X) (shape L) = None ->
  construct_utility L X =
  Raise (ValueError "shape mismatch: objects cannot be broadcast to a single shape").
Proof.
  intros Hs.
  unfold construct_utility, select, broadcast_arrays, common_shape.
  cbn [length Nat.eqb negb].
  unfold greater_scalar, less_scalar.
  rewrite !shape_map_cells, Hs.
  reflexivity.
Qed.

Lemma construct_utility_same_shape (L X : ndarray float64) :
  shape L = shape X ->
  construct_utility L X =
  Ok (copyto (copyto (full (shape X) zero) L (less_scalar L zero))
             X (greater_scalar X zero)).
Proof.
  intros HLX.
  rewrite (construct_utility_broadcast L X (shape X))
    by (rewrite HLX; apply broadcast_shapes_same).
  replace (broadcast_to (shape X) (greater_scalar X zero))
    with (greater_scalar X zero)
    by (symmetry; apply (broadcast_to_shape_id (greater_scalar X zero))).
  replace (broadcast_to (shape X) X) with X
    by (symmetry; apply broadcast_to_shape_id).
  rewrite <- HLX.
  replace (broadcast_to (shape L) (less_scalar L zero))
    with (less_scalar L zero)
    by (symmetry; apply (broadcast_to_shape_id (less_scalar L zero))).
  replace (broadcast_to (shape L) L) with L
    by (symmetry; apply broadcast_to_shape_id).
  reflexivity.
Qed.

Lemma ufunc2_same_shape {A B C : Type} (f : A -> B -> C)
      (a : ndarray A) (b : ndarray B) :
  shape a = shape b ->
  ufunc2 f a b =
  Ok (mk_ndarray (nrows a) (ncols a) (zip_with (zip_with f) (rows a) (rows b))).
Proof.
  intros Hab.
  unfold ufunc2.
  rewrite <- Hab, broadcast_shapes_same.
  rewrite (broadcast_to_shape_id a).
  rewrite Hab, (broadcast_to_shape_id b).
  rewrite <- Hab; reflexivity.
Qed.

Lemma apply_momentum_same_shape (current_X previous_X : ndarray float64)
      (beta : float64) :
  shape current_X = shape previous_X ->
  apply_momentum current_X previous_X beta =
  Ok (mk_ndarray (nrows current_X) (ncols current_X)
        (zip_with (zip_with Float64.add) (rows current_X)
           (map (map (fun x => mul beta x))
              (zip_with (zip_with sub) (rows current_X) (rows previous_X))))).
Proof.
  intros Hs.
  unfold apply_momentum, subtract, Numpy.add.
  rewrite (ufunc2_same_shape sub current_X previous_X Hs).
  cbn [Py.bind].
  rewrite ufunc2_same_shape by reflexivity.
  reflexivity.
Qed.

Lemma apply_momentum_broadcast (current_X previous_X : ndarray float64)
      (beta : float64) (s : nat * nat) :
  broadcast_shapes (shape current_X) (shape previous_X) = Some s ->
  exists R, apply_momentum current_X previous_X beta = Ok R /\ shape R = s.
Proof.
  intros Hs.
  unfold apply_momentum, subtract, Numpy.add, ufunc2.
  rewrite Hs; cbn [Py.bind].
  unfold multiply_scalar; rewrite shape_map_cells.
  replace (shape {| nrows := fst s; ncols := snd s;
                    rows := zip_with (zip_with sub)
                              (rows (broadcast_to s current_X))
                              (rows (broadcast_to s previous_X)) |})
    with s by (destruct s; reflexivity).
  rewrite (broadcast_shapes_left _ _ _ Hs).
  eexists; split; [reflexivity|].
  destruct s; reflexivity.
Qed.

Lemma apply_momentum_mismatch (current_X previous_X : ndarray float64)
      (beta : float64) :
  broadcast_shapes (shape current_X) (shape previous_X) = None ->
  apply_momentum current_X previous_X beta =
  Raise (ValueError "operands could not be broadcast together").
Proof.
  intros Hs.
  unfold apply_momentum, subtract, ufunc2.
  rewrite Hs; reflexivity.
Qed.

(** ** Facts of binary64 arithmetic used by the operations *)

Section FloatFacts.

Ltac float_cases x :=
  destruct x as [[|]|[|]| |[|] ? ?]; try discriminate; try reflexivity.

Lemma compare_refl (x : float64) :
  isnan x = false -> SFcompare x x = Some Eq.
Proof.
  float_cases x; intros _; simpl;
    rewrite Z.compare_refl, Pos.compare_cont_refl; reflexivity.
Qed.

Lemma eqb_refl (x : float64) : isnan x = false -> eqb x x = true.
Proof. intros H; unfold eqb, SFeqb; rewrite (compare_refl x H); reflexivity. Qed.

Lemma le_refl (x : float64) : isnan x = false -> le x x = true.
Proof. intros H; unfold le, SFleb; rewrite (compare_refl x H); reflexivity. Qed.

(** [np.maximum(0.0, y)]: [0.0] where [y] is negative, else [y] itself (a
    zero of either sign, a positive number or NaN). *)
Lemma maximum_cell_zero (y : float64) :
  maximum_cell zero y = if lt y zero then zero else y.
Proof. reflexivity. Qed.

Lemma maximum_cell_zero_py_max (y : float64) :
  isnan y = false -> eqb (maximum_cell zero y) (py_max zero y) = true.
Proof.
  rewrite maximum_cell_zero.
  destruct y as [[|]|[|]| |[|] m e]; try discriminate; try reflexivity.
  intros _; exact (eqb_refl (S754_finite false m e) eq_refl).
Qed.

Lemma maximum_cell_zero_not_negative (y : float64) :
  lt (maximum_cell zero y) zero = false.
Proof. rewrite maximum_cell_zero; float_cases y. Qed.

Lemma maximum_cell_zero_nonneg (y : float64) :
  isnan y = false -> ge (maximum_cell zero y) zero = true.
Proof. rewrite maximum_cell_zero; float_cases y. Qed.

Lemma maximum_cell_zero_positive (y : float64) :
  gt y zero = true -> maximum_cell zero y = y.
Proof. rewrite maximum_cell_zero; float_cases y. Qed.

Lemma maximum_cell_zero_fixes_nonneg (y : float64) :
  ge y zero = true -> eqb (maximum_cell zero y) y = true.
Proof.
  rewrite maximum_cell_zero.
  destruct y as [[|]|[|]| |[|] m e]; try discriminate; try reflexivity.
  intros _; exact (eqb_refl (S754_finite false m e) eq_refl).
Qed.

Lemma maximum_cell_zero_idem (y : float64) :
  maximum_cell zero (maximum_cell zero y) = maximum_cell zero y.
Proof. rewrite !maximum_cell_zero; float_cases y. Qed.

Lemma utility_cell_py_min (l x : float64) :
  utility_cell l x = if gt x zero then x else py_min zero l.
Proof. reflexivity. Qed.

Lemma py_min_zero_not_positive (l : float64) : gt (py_min zero l) zero = false.
Proof. unfold py_min; float_cases l. Qed.

Lemma py_min_zero_le_zero (l : float64) : le (py_min zero l) zero = true.
Proof. unfold py_min; float_cases l. Qed.

Lemma py_min_zero_le_arg (l : float64) :
  isnan l = false -> le (py_min zero l) l = true.
Proof.
  unfold py_min; float_cases l.
  intros _; cbn [lt SFltb SFcompare zero].
  apply le_refl; reflexivity.
Qed.

Lemma py_min_zero_cases (l : float64) :
  py_min zero l = zero \/ py_min zero l = l.
Proof. unfold py_min; destruct (lt l zero); auto. Qed.

Lemma utility_cell_positive (l x : float64) :
  gt (utility_cell l x) zero = true -> gt x zero = true /\ utility_cell l x = x.
Proof.
  rewrite utility_cell_py_min.
  destruct (gt x zero) eqn:Ex; [auto|].
  rewrite py_min_zero_not_positive; discriminate.
Qed.

(** Clipping the utility cell gives back a nonnegative [x], up to the sign
    of zero. *)
Lemma maximum_utility_cell (l x : float64) :
  ge x zero = true -> eqb (maximum_cell zero (utility_cell l x)) x = true.
Proof.
  intros Hx.
  unfold utility_cell.
  destruct (gt x zero) eqn:Ex.
  - rewrite (maximum_cell_zero_positive x Ex).
    apply eqb_refl; destruct x; try discriminate; reflexivity.
  - assert (Hz : maximum_cell zero (if lt l zero then l else zero) = zero)
      by (rewrite maximum_cell_zero; float_cases l).
    rewrite Hz.
    destruct x as [[|]|[|]| |[|] ? ?]; try discriminate; reflexivity.
Qed.

(** *** Subtraction, multiplication by a zero, addition of a zero *)

Lemma sub_diag (x : float64) : isfinite x = true -> sub x x = zero.
Proof.
  float_cases x; intros _.
  all: unfold sub, SFsub; rewrite Z.sub_diag; reflexivity.
Qed.

Lemma mul_finite_zero (b z : float64) :
  isfinite b = true -> iszero z = true -> iszero (mul b z) = true.
Proof. destruct b, z; try discriminate; reflexivity. Qed.

Lemma mul_zero_finite (z y : float64) :
  iszero z = true -> isfinite y = true -> iszero (mul z y) = true.
Proof. destruct z, y; try discriminate; reflexivity. Qed.

Lemma add_zero_r (x z : float64) :
  isfinite x = true -> iszero z = true -> eqb (Float64.add x z) x = true.
Proof.
  destruct z as [sz| | |]; try discriminate.
  destruct x as [[|]| | |s m e]; try discriminate; intros _ _.
  - destruct sz; reflexivity.
  - destruct sz; reflexivity.
  - change (Float64.add (S754_finite s m e) (S754_zero sz))
      with (S754_finite s m e).
    apply eqb_refl; reflexivity.
Qed.

(** [current + 0.0 * d] is [current] as long as [d] is finite. *)
Lemma momentum_cell_beta_zero (c d : float64) :
  isfinite c = true -> isfinite d = true ->
  eqb (Float64.add c (mul zero d)) c = true.
Proof.
  intros Hc Hd.
  apply add_zero_r; [exact Hc|].
  apply mul_zero_finite; [reflexivity | exact Hd].
Qed.

(** [m + beta * (m - m)] is [m] for finite [m] and [beta]. *)
Lemma momentum_cell_stationary (m beta : float64) :
  isfinite m = true -> isfinite beta = true ->
  eqb (Float64.add m (mul beta (sub m m))) m = true.
Proof.
  intros Hm Hb.
  rewrite (sub_diag m Hm).
  apply add_zero_r; [exact Hm|].
  apply mul_finite_zero; [exact Hb | reflexivity].
Qed.

End FloatFacts.

(** *** Multiplication by [1.0] is exact *)

Section MulOne.

Lemma digits2_pos_shift52 (m : positive) :
  Zpos (digits2_pos (Lit.p52 * m)) = (Zpos (digits2_pos m) + 52)%Z.
Proof.
  unfold Lit.p52; cbn [Pos.mul digits2_pos]. lia.
Qed.

Lemma shr_shift52 (m : positive) :
  iter_pos shr_1 52 (Build_shr_record (Zpos (Lit.p52 * m)) false false) =
  Build_shr_record (Zpos m) false false.
Proof. reflexivity. Qed.

Lemma mul_one_l (x : float64) : valid x = true -> mul one x = x.
Proof.
  destruct x as [s|s| |s m e]; try reflexivity.
  unfold valid, valid_binary, bounded, canonical_mantissa.
  intros H; apply andb_true_iff in H; destruct H as [Hc Hb].
  apply Z.eqb_eq in Hc.
  unfold mul, SFmul, one.
  fold Lit.p52.
  unfold binary_round_aux, shr_fexp.
  cbn [Zdigits2 shr_record_of_loc xorb].
  rewrite digits2_pos_shift52.
  replace (Zpos (digits2_pos m) + 52 + (-52 + e))%Z
    with (Zpos (digits2_pos m) + e)%Z by lia.
  rewrite Hc.
  replace (e - (-52 + e))%Z with 52%Z by lia.
  unfold shr at 1.
  rewrite shr_shift52.
  cbn [shr_m loc_of_shr_record round_nearest_even Zdigits2 shr_record_of_loc].
  replace (-52 + e + 52)%Z with e by lia.
  rewrite Hc, Z.sub_diag.
  cbn [shr shr_m].
  rewrite Hb; reflexivity.
Qed.

End MulOne.

(** *** Subtraction and addition return floats of the format *)

Section Validity.

Local Open Scope Z_scope.

Lemma digits2_pos_log2 (p : positive) :
  Zpos (digits2_pos p) = Z.log2 (Zpos p) + 1.
Proof.
  assert (Hsize : forall q, digits2_pos q = Pos.size q)
    by (induction q as [q IH|q IH|]; simpl; congruence).
  rewrite Hsize.
  destruct p as [p|p|]; simpl; try rewrite Pos2Z.inj_succ; lia.
Qed.

Lemma Zdigits2_log2 (z : Z) : 0 < z -> Zdigits2 z = Z.log2 z + 1.
Proof. destruct z as [|p|p]; try lia; intros _; apply digits2_pos_log2. Qed.

Lemma Zdigits2_nonneg (z : Z) : 0 <= Zdigits2 z.
Proof. destruct z; simpl; lia. Qed.

Lemma Zdigits2_shiftr (z n : Z) :
  0 <= z -> 0 <= n -> Zdigits2 (Z.shiftr z n) = Z.max 0 (Zdigits2 z - n).
Proof.
  intros Hz Hn.
  destruct (Z.eq_dec z 0) as [->|Hz0].
  - rewrite Z.shiftr_0_l; simpl; lia.
  - assert (Hpos : 0 < z) by lia.
    rewrite (Zdigits2_log2 z Hpos).
    pose proof (Z.shiftr_nonneg z n) as Hsn.
    destruct (Z.eq_dec (Z.shiftr z n) 0) as [E|E].
    + rewrite E; simpl.
      apply Z.shiftr_eq_0_iff in E.
      destruct E as [E|[_ E]]; lia.
    + assert (Hs : 0 < Z.shiftr z n) by lia.
      rewrite (Zdigits2_log2 _ Hs).
      rewrite (Z.log2_shiftr z n Hpos).
      assert (~ Z.log2 z < n).
      { intros Hlt. apply E. apply Z.shiftr_eq_0_iff. right; lia. }
      lia.
Qed.

Lemma Zdigits2_succ (z : Z) :
  0 <= z -> Zdigits2 z <= Zdigits2 (z + 1) <= Zdigits2 z + 1.
Proof.
  intros Hz.
  destruct (Z.eq_dec z 0) as [->|Hz0]; [simpl; lia|].
  rewrite (Zdigits2_log2 z), (Zdigits2_log2 (z + 1)) by lia.
  pose proof (Z.log2_le_mono z (z + 1)).
  pose proof (Z.log2_succ_le z).
  unfold Z.succ in *; lia.
Qed.

Lemma iter_pos_iter {A : Type} (f : A -> A) (n : positive) (x : A) :
  iter_pos f n x = Pos.iter f x n.
Proof.
  revert x; induction n as [n IH|n IH|]; intros x; simpl.
  - rewrite !IH, !Pos.iter_swap; reflexivity.
  - rewrite !IH; reflexivity.
  - reflexivity.
Qed.

Lemma shr_1_div2 (r : shr_record) :
  0 <= shr_m r -> shr_m (shr_1 r) = Z.div2 (shr_m r).
Proof.
  destruct r as [[|[p|p|]|p] b c]; simpl; intros H; try reflexivity; lia.
Qed.

Lemma iter_shr_1_shiftr (n : positive) (r : shr_record) :
  0 <= shr_m r ->
  shr_m (iter_pos shr_1 n r) = Z.shiftr (shr_m r) (Zpos n).
Proof.
  intros Hr.
  rewrite iter_pos_iter.
  change (Z.shiftr (shr_m r) (Zpos n)) with (Pos.iter Z.div2 (shr_m r) n).
  enough (H : shr_m (Pos.iter shr_1 r n) = Pos.iter Z.div2 (shr_m r) n /\
              0 <= shr_m (Pos.iter shr_1 r n)) by apply H.
  induction n as [|n IH] using Pos.peano_ind.
  - simpl. rewrite (shr_1_div2 r Hr).
    split; [reflexivity|].
    rewrite Z.div2_div. apply Z.div_pos; lia.
  - rewrite !Pos.iter_succ.
    destruct IH as [IH1 IH2].
    rewrite (shr_1_div2 _ IH2), IH1.
    split; [reflexivity|].
    rewrite Z.div2_div. apply Z.div_pos; lia.
Qed.

Lemma shr_m_of_loc (z : Z) (l : location) : shr_m (shr_record_of_loc z l) = z.
Proof. destruct l as [|[]]; reflexivity. Qed.

(** A right shift to the exponent of the format. *)
Lemma shr_fexp_spec (z e : Z) (l : location) :
  0 <= z -> e <= fexp prec emax (Zdigits2 z + e) ->
  let r := shr_fexp prec emax z e l in
  snd r = fexp prec emax (Zdigits2 z + e) /\
  0 <= shr_m (fst r) /\
  Zdigits2 (shr_m (fst r)) = Z.max 0 (Zdigits2 z - (snd r - e)).
Proof.
  intros Hz He.
  unfold shr_fexp, shr.
  remember (fexp prec emax (Zdigits2 z + e)) as E eqn:HE.
  destruct (E - e) as [|n|n] eqn:Hn; cbn [fst snd]; try lia.
  - rewrite shr_m_of_loc.
    pose proof (Zdigits2_nonneg z).
    repeat split; lia.
  - rewrite iter_shr_1_shiftr by (rewrite shr_m_of_loc; exact Hz).
    rewrite shr_m_of_loc.
    split; [lia|].
    split; [apply Z.shiftr_nonneg; exact Hz|].
    rewrite Zdigits2_shiftr by lia.
    f_equal; lia.
Qed.

Lemma round_nearest_even_cases (m : Z) (l : location) :
  round_nearest_even m l = m \/ round_nearest_even m l = m + 1.
Proof.
  destruct l as [|[]]; simpl; auto.
  destruct (Z.even m); auto.
Qed.

Lemma fexp_mono (a b : Z) : a <= b -> fexp prec emax a <= fexp prec emax b.
Proof. unfold fexp; lia. Qed.

(** Rounding yields a float of the format (or a zero, an infinity). *)
Lemma binary_round_aux_valid (s : bool) (z e : Z) (l : location) :
  0 <= z -> e <= fexp prec emax (Zdigits2 z + e) ->
  valid (binary_round_aux prec emax s z e l) = true.
Proof.
  intros Hz He.
  unfold binary_round_aux.
  pose proof (shr_fexp_spec z e l Hz He) as H1; cbv zeta in H1.
  destruct (shr_fexp prec emax z e l) as [mrs' e'].
  cbn [fst snd] in H1; destruct H1 as [He' [Hm' Hd']].
  set (m1 := round_nearest_even (shr_m mrs') (loc_of_shr_record mrs')).
  assert (Hm1 : 0 <= m1 /\ Zdigits2 (shr_m mrs') <= Zdigits2 m1).
  { unfold m1.
    destruct (round_nearest_even_cases (shr_m mrs') (loc_of_shr_record mrs'))
      as [-> | ->]; [lia|].
    pose proof (Zdigits2_succ (shr_m mrs') Hm'); lia. }
  destruct Hm1 as [Hm1 Hd1].
  assert (He1 : e' <= fexp prec emax (Zdigits2 m1 + e')).
  { rewrite He' at 1. apply fexp_mono; lia. }
  pose proof (shr_fexp_spec m1 e' loc_Exact Hm1 He1) as H2; cbv zeta in H2.
  destruct (shr_fexp prec emax m1 e' loc_Exact) as [mrs'' e''].
  cbn [fst snd] in H2; destruct H2 as [He'' [Hm'' Hd'']].
  destruct (shr_m mrs'') as [|m|m] eqn:Em; try reflexivity.
  destruct (Z.leb e'' (emax - prec)) eqn:Hb; [|reflexivity].
  unfold valid, valid_binary, bounded, canonical_mantissa.
  rewrite Hb, andb_true_r.
  apply Z.eqb_eq.
  change (Zpos (digits2_pos m)) with (Zdigits2 (Zpos m)).
  rewrite Hd''.
  assert (0 < Zdigits2 (Zpos m)) by (simpl; lia).
  rewrite Hd'' in H.
  replace (Z.max 0 (Zdigits2 m1 - (e'' - e')) + e'') with (Zdigits2 m1 + e') by lia.
  symmetry; exact He''.
Qed.

Lemma digits2_pos_iter_xO (m d : positive) :
  Zpos (digits2_pos (Pos.iter xO m d)) = Zpos (digits2_pos m) + Zpos d.
Proof.
  induction d as [|d IH] using Pos.peano_ind.
  - simpl; lia.
  - rewrite Pos.iter_succ; cbn [digits2_pos].
    rewrite Pos2Z.inj_succ, IH; lia.
Qed.

Lemma binary_round_valid (s : bool) (m : positive) (e : Z) :
  valid (binary_round prec emax s m e) = true.
Proof.
  unfold binary_round, shl_align.
  destruct (fexp prec emax (Zpos (digits2_pos m) + e) - e) as [|d|d] eqn:Hd.
  - apply binary_round_aux_valid; [lia|]. cbn [Zdigits2]; lia.
  - apply binary_round_aux_valid; [lia|]. cbn [Zdigits2]; lia.
  - apply binary_round_aux_valid; [lia|].
    cbn [Zdigits2].
    rewrite digits2_pos_iter_xO.
    replace (Zpos (digits2_pos m) + Zpos d +
             fexp prec emax (Zpos (digits2_pos m) + e))
      with (Zpos (digits2_pos m) + e) by lia.
    lia.
Qed.

Lemma binary_normalize_valid (z e : Z) (sz : bool) :
  valid (binary_normalize prec emax z e sz) = true.
Proof. destruct z; [reflexivity | apply binary_round_valid ..]. Qed.

Lemma sub_valid (x y : float64) :
  valid x = true -> valid y = true -> valid (sub x y) = true.
Proof.
  intros Hx Hy.
  destruct x as [sx|sx| |sx mx ex], y as [sy|sy| |sy my ey];
    try reflexivity; try assumption;
    try (destruct sx, sy; reflexivity).
  apply binary_normalize_valid.
Qed.

Lemma add_valid (x y : float64) :
  valid x = true -> valid y = true -> valid (Float64.add x y) = true.
Proof.
  intros Hx Hy.
  destruct x as [sx|sx| |sx mx ex], y as [sy|sy| |sy my ey];
    try reflexivity; try assumption;
    try (destruct sx, sy; reflexivity).
  apply binary_normalize_valid.
Qed.

End Validity.

(** ** Cells of the results *)

Lemma getitem_copyto {A : Type} (dst src : ndarray A) (mask : ndarray bool)
      (i j : nat) :
  shape src = shape dst -> shape mask = shape dst ->
  getitem (copyto dst src mask) i j =
  match getitem dst i j, getitem src i j, getitem mask i j with
  | Some d, Some v, Some m => Some (if m then v else d)
  | _, _, _ => None
  end.
Proof.
  intros Hsrc Hmask.
  unfold copyto.
  replace (broadcast_to (shape dst) src) with src
    by (rewrite <- Hsrc; symmetry; apply broadcast_to_shape_id).
  replace (broadcast_to (shape dst) mask) with mask
    by (rewrite <- Hmask; symmetry; apply broadcast_to_shape_id).
  rewrite getitem_zip_with, getitem_zip_with.
  rewrite !getitem_rows.
  destruct (getitem dst i j), (getitem src i j), (getitem mask i j);
    reflexivity.
Qed.

(** On operands of one shape, the cell of the utility matrix is the cell
    rule applied to the cells of the operands. *)
Lemma getitem_construct_utility (L X Z : ndarray float64) (i j : nat)
      (l x : float64) :
  shape L = shape X ->
  construct_utility L X = Ok Z ->
  i < nrows X -> j < ncols X ->
  getitem L i j = Some l -> getitem X i j = Some x ->
  getitem Z i j = Some (utility_cell l x).
Proof.
  intros HLX HZ Hi Hj Hl Hx.
  rewrite (construct_utility_same_shape L X HLX) in HZ.
  injection HZ as <-.
  rewrite getitem_copyto by (rewrite ?shape_copyto; reflexivity).
  rewrite getitem_copyto by (rewrite ?shape_copyto; auto).
  rewrite getitem_full by assumption.
  unfold greater_scalar, less_scalar.
  rewrite !getitem_map_cells, Hl, Hx.
  cbn [option_map].
  unfold utility_cell.
  destruct (gt x zero), (lt l zero); reflexivity.
Qed.

Lemma getitem_apply_momentum (current_X previous_X R : ndarray float64)
      (beta : float64) (i j : nat) (c p : float64) :
  shape current_X = shape previous_X ->
  apply_momentum current_X previous_X beta = Ok R ->
  getitem current_X i j = Some c -> getitem previous_X i j = Some p ->
  getitem R i j = Some (Float64.add c (mul beta (sub c p))).
Proof.
  intros Hs HR Hc Hp.
  rewrite (apply_momentum_same_shape current_X previous_X beta Hs) in HR.
  injection HR as <-.
  rewrite getitem_zip_with, getitem_rows, Hc.
  change (mk_ndarray (nrows current_X) (ncols current_X)
            (map (map (fun x => mul beta x))
               (zip_with (zip_with sub) (rows current_X) (rows previous_X))))
    with (map_cells (fun x => mul beta x)
            (mk_ndarray (nrows current_X) (ncols current_X)
               (zip_with (zip_with sub) (rows current_X) (rows previous_X)))).
  rewrite getitem_map_cells, getitem_zip_with, !getitem_rows, Hc.
  rewrite Hp.
  reflexivity.
Qed.

Lemma wf_map_cells {A B : Type} (f : A -> B) (a : ndarray A) :
  wf a = true -> wf (map_cells f a) = true.
Proof.
  unfold wf, map_cells; cbn [rows nrows ncols].
  rewrite length_map.
  intros H; apply andb_true_iff in H; destruct H as [Hr Hc].
  rewrite Hr; cbn [andb].
  rewrite forallb_forall in *.
  intros r Hin.
  apply in_map_iff in Hin; destruct Hin as [r0 [<- Hin0]].
  rewrite length_map; apply Hc, Hin0.
Qed.

(** ** Results agree with their shape *)

Lemma length_zip_with {A B C : Type} (f : A -> B -> C)
      (l1 : list A) (l2 : list B) :
  length (zip_with f l1 l2) = Nat.min (length l1) (length l2).
Proof.
  revert l2; induction l1 as [|x l1 IH]; intros [|y l2]; simpl; auto.
Qed.

Lemma in_zip_with {A B C : Type} (f : A -> B -> C)
      (l1 : list A) (l2 : list B) (z : C) :
  In z (zip_with f l1 l2) ->
  exists x y, In x l1 /\ In y l2 /\ z = f x y.
Proof.
  revert l2; induction l1 as [|x l1 IH]; intros [|y l2]; simpl;
    try contradiction.
  intros [<- | Hin].
  - exists x, y; auto.
  - destruct (IH l2 Hin) as [x' [y' [H1 [H2 H3]]]].
    exists x', y'; auto.
Qed.

Lemma wf_zip_with {A B C : Type} (f : A -> B -> C) (m n : nat)
      (R1 : list (list A)) (R2 : list (list B)) :
  wf (mk_ndarray m n R1) = true -> wf (mk_ndarray m n R2) = true ->
  wf (mk_ndarray m n (zip_with (zip_with f) R1 R2)) = true.
Proof.
  unfold wf; cbn [rows nrows ncols].
  intros H1 H2.
  apply andb_true_iff in H1; destruct H1 as [Hr1 Hc1].
  apply andb_true_iff in H2; destruct H2 as [Hr2 Hc2].
  apply Nat.eqb_eq in Hr1, Hr2.
  rewrite forallb_forall in Hc1, Hc2.
  apply andb_true_iff; split.
  - apply Nat.eqb_eq; rewrite length_zip_with; lia.
  - apply forallb_forall; intros r Hin.
    destruct (in_zip_with _ _ _ _ Hin) as [r1 [r2 [Hin1 [Hin2 ->]]]].
    specialize (Hc1 r1 Hin1); specialize (Hc2 r2 Hin2).
    apply Nat.eqb_eq in Hc1, Hc2.
    apply Nat.eqb_eq; rewrite length_zip_with; lia.
Qed.

Lemma wf_full {A : Type} (s : nat * nat) (v : A) : wf (full s v) = true.
Proof.
  unfold wf, full; cbn [rows nrows ncols].
  rewrite repeat_length, Nat.eqb_refl; cbn [andb].
  apply forallb_forall; intros r Hin.
  apply repeat_spec in Hin; subst r.
  rewrite repeat_length; apply Nat.eqb_refl.
Qed.

Lemma wf_reshape {A : Type} (a : ndarray A) :
  wf a = true -> wf (mk_ndarray (nrows a) (ncols a) (rows a)) = true.
Proof. destruct a; auto. Qed.

Lemma wf_copyto {A : Type} (dst src : ndarray A) (mask : ndarray bool) :
  wf dst = true -> wf src = true -> wf mask = true ->
  shape src = shape dst -> shape mask = shape dst ->
  wf (copyto dst src mask) = true.
Proof.
  intros Hd Hs Hm Hss Hsm.
  unfold copyto.
  replace (broadcast_to (shape dst) src) with src
    by (rewrite <- Hss; symmetry; apply broadcast_to_shape_id).
  replace (broadcast_to (shape dst) mask) with mask
    by (rewrite <- Hsm; symmetry; apply broadcast_to_shape_id).
  unfold shape in Hss, Hsm.
  injection Hss as Hr1 Hc1; injection Hsm as Hr2 Hc2.
  apply wf_zip_with; [apply wf_reshape; exact Hd|].
  apply wf_zip_with.
  - rewrite <- Hr1, <- Hc1; apply wf_reshape; exact Hs.
  - rewrite <- Hr2, <- Hc2; apply wf_reshape; exact Hm.
Qed.

Lemma wf_construct_utility (L X Z : ndarray float64) :
  wf L = true -> wf X = true -> shape L = shape X ->
  construct_utility L X = Ok Z -> wf Z = true.
Proof.
  intros HwL HwX Hs HZ.
  rewrite (construct_utility_same_shape L X Hs) in HZ.
  injection HZ as <-.
  apply wf_copyto.
  - apply wf_copyto; auto.
    + apply wf_full.
    + apply wf_map_cells; exact HwL.
  - exact HwX.
  - apply wf_map_cells; exact HwX.
  - rewrite shape_copyto; destruct X; reflexivity.
  - rewrite shape_copyto; destruct X; reflexivity.
Qed.

Lemma wf_apply_momentum (current_X previous_X R : ndarray float64)
      (beta : float64) :
  wf current_X = true -> wf previous_X = true ->
  shape current_X = shape previous_X ->
  apply_momentum current_X previous_X beta = Ok R -> wf R = true.
Proof.
  intros Hwc Hwp Hs HR.
  rewrite (apply_momentum_same_shape current_X previous_X beta Hs) in HR.
  injection HR as <-.
  unfold shape in Hs; injection Hs as Hr Hc.
  apply wf_zip_with; [apply wf_reshape; exact Hwc|].
  apply (wf_map_cells (fun x => mul beta x)
           (mk_ndarray (nrows current_X) (ncols current_X)
              (zip_with (zip_with sub) (rows current_X) (rows previous_X)))).
  apply wf_zip_with; [apply wf_reshape; exact Hwc|].
  rewrite Hr, Hc; apply wf_reshape; exact Hwp.
Qed.

Lemma same_shape_bounds {A B : Type} (a : ndarray A) (b : ndarray B) :
  shape a = shape b -> nrows a = nrows b /\ ncols a = ncols b.
Proof. unfold shape; intros [= H1 H2]; auto. Qed.

(** * The claims *)

Import Lit.

(** ** The scenarios of the specification *)

Example scenario_construct_utility :
  construct_utility L0 X0 = Ok (mat 2 2 [[f_1; f_m0_3]; [zero; f_2]]).
Proof. reflexivity. Qed.

Example scenario_reconstruct :
  reconstruct_X_from_L L0 = mat 2 2 [[f_0_5; zero]; [f_0_2; f_1_9]].
Proof. reflexivity. Qed.

(** Signed zeros: clipping keeps [-0.0], which is equal ([==]) to [0.0]
    without being the same float. *)
Example reconstruct_negative_zero :
  reconstruct_X_from_L (mat 1 1 [[neg_zero]]) = mat 1 1 [[neg_zero]] /\
  eqb neg_zero zero = true /\ neg_zero <> zero.
Proof. repeat split; discriminate. Qed.

Example scenario_apply_momentum :
  apply_momentum (mat 1 2 [[f_2; f_2]]) (mat 1 2 [[f_1; f_1]]) f_0_5 =
  Ok (mat 1 2 [[f_2_5; f_2_5]]).
Proof. vm_compute; reflexivity. Qed.

(** ** Utility matrix *)

(** C1. On operands of one shape [construct_utility(L, X)] returns a matrix
    [Z] of that shape whose every cell is [X[i,j]] where [X[i,j] > 0] and
    [min(0, L[i,j])] elsewhere.  Hence a cell of [Z] is positive only where
    [X] is positive, and is then exactly that cell of [X]; where [X] is not
    positive the cell is at most [0], at most [L[i,j]] (for [L[i,j]] not
    NaN) and is one of the two.  Nothing is required of the cells of [X] or
    [L]; in particular this holds for every nonnegative [X]. *)
Theorem construct_utility_cell_rule (L X : ndarray float64) :
  wf L = true -> wf X = true -> shape L = shape X ->
  exists Z,
    construct_utility L X = Ok Z /\
    shape Z = shape X /\ wf Z = true /\
    forall i j, i < nrows X -> j < ncols X ->
      exists l x z,
        getitem L i j = Some l /\ getitem X i j = Some x /\
        getitem Z i j = Some z /\
        z = (if gt x zero then x else py_min zero l) /\
        (gt z zero = true -> gt x zero = true /\ z = x) /\
        (gt x zero = false ->
         le z zero = true /\ (isnan l = false -> le z l = true) /\
         (z = zero \/ z = l)).
Proof.
  intros HwL HwX Hs.
  destruct (same_shape_bounds L X Hs) as [Hr Hc].
  pose proof (construct_utility_same_shape L X Hs) as HZ.
  eexists; split; [exact HZ|].
  split; [reflexivity|].
  split; [exact (wf_construct_utility L X _ HwL HwX Hs HZ)|].
  intros i j Hi Hj.
  destruct (getitem_in_range X i j HwX Hi Hj) as [x Hx].
  destruct (getitem_in_range L i j HwL) as [l Hl]; [lia | lia |].
  exists l, x, (utility_cell l x).
  split; [exact Hl|]. split; [exact Hx|].
  split; [exact (getitem_construct_utility L X _ i j l x Hs HZ Hi Hj Hl Hx)|].
  split; [apply utility_cell_py_min|].
  split; [apply utility_cell_positive|].
  intros Hx0.
  rewrite utility_cell_py_min, Hx0.
  split; [apply py_min_zero_le_zero|].
  split; [apply py_min_zero_le_arg|apply py_min_zero_cases].
Qed.

Lemma construct_utility_cell_rule_witness :
  wf L0 = true /\ wf X0 = true /\ shape L0 = shape X0 /\
  exists Z, construct_utility L0 X0 = Ok Z /\ shape Z = (2, 2) /\
            getitem Z 0 1 = Some f_m0_3 /\ getitem Z 1 1 = Some f_2.
Proof.
  split; [reflexivity|]. split; [reflexivity|]. split; [reflexivity|].
  destruct (construct_utility_cell_rule L0 X0 eq_refl eq_refl eq_refl)
    as [Z [HZ [Hshape [_ Hcells]]]].
  exists Z.
  split; [exact HZ|]. split; [exact Hshape|].
  split.
  - destruct (Hcells 0 1) as [l [x [z [Hl [Hx [Hz [E _]]]]]]];
      [simpl; lia | simpl; lia |].
    injection Hl as <-; injection Hx as <-.
    rewrite Hz, E; reflexivity.
  - destruct (Hcells 1 1) as [l [x [z [Hl [Hx [Hz [E _]]]]]]];
      [simpl; lia | simpl; lia |].
    injection Hl as <-; injection Hx as <-.
    rewrite Hz, E; reflexivity.
Defined.

(** ** Operands of different shapes *)

(** C2, as amended.  Neither operation compares the shapes of its operands:
    both leave them to NumPy's broadcasting.  When the shapes do not
    broadcast together (on some axis the extents differ and neither is 1)
    [construct_utility] and [apply_momentum] raise NumPy's [ValueError] and
    return no matrix; when they do broadcast, equal or not, both operations
    return a matrix of the broadcast shape. *)
Theorem shape_mismatch_is_broadcast_failure
        (a b : ndarray float64) (beta : float64) :
  match broadcast_shapes (shape a) (shape b) with
  | None =>
      construct_utility a b =
        Raise (ValueError
                 "shape mismatch: objects cannot be broadcast to a single shape") /\
      apply_momentum a b beta =
        Raise (ValueError "operands could not be broadcast together")
  | Some s =>
      (exists Z, construct_utility a b = Ok Z /\ shape Z = s) /\
      (exists R, apply_momentum a b beta = Ok R /\ shape R = s)
  end.
Proof.
  destruct (broadcast_shapes (shape a) (shape b)) as [s|] eqn:Hs.
  - split.
    + rewrite broadcast_shapes_comm in Hs.
      rewrite (construct_utility_broadcast a b s Hs).
      eexists; split; [reflexivity|].
      destruct s; reflexivity.
    + apply apply_momentum_broadcast; exact Hs.
  - split.
    + apply construct_utility_mismatch.
      rewrite broadcast_shapes_comm; exact Hs.
    + apply apply_momentum_mismatch; exact Hs.
Qed.

(** C2 fails as stated: a [(2, 2)] matrix and a [(1, 2)] matrix have
    different shapes, and both operations return a [(2, 2)] result. *)
Lemma differing_shapes_are_broadcast :
  let L := L0 in
  let X := mat 1 2 [[f_1; zero]] in
  wf L = true /\ wf X = true /\ shape L <> shape X /\
  construct_utility L X =
    Ok (mat 2 2 [[f_1; f_m0_3]; [f_1; zero]]) /\
  returns (apply_momentum L X one) = true.
Proof.
  cbv zeta.
  split; [reflexivity|]. split; [reflexivity|].
  split; [discriminate|].
  split; [reflexivity|].
  vm_compute; reflexivity.
Qed.

(** ** Reconstruction *)

(** C3. For a matrix [L] of finite cells, [reconstruct_X_from_L(L)] has the
    shape of [L] and its every cell is [max(0, L[i,j])] (as numbers: a cell
    [-0.0] stays [-0.0], which is [== 0.0]): it is never negative, it
    equals [L[i,j]] wherever [L[i,j] >= 0], and it is that very cell
    wherever [L[i,j] > 0]. *)
Theorem reconstruct_X_from_L_clips (L : ndarray float64) :
  wf L = true -> all_cells isfinite L = true ->
  let R := reconstruct_X_from_L L in
  shape R = shape L /\ wf R = true /\
  forall i j, i < nrows L -> j < ncols L ->
    exists l r,
      getitem L i j = Some l /\ getitem R i j = Some r /\
      eqb r (py_max zero l) = true /\
      lt r zero = false /\ ge r zero = true /\
      (ge l zero = true -> eqb r l = true) /\
      (gt l zero = true -> r = l).
Proof.
  intros HwL Hfin R.
  split; [reflexivity|].
  split; [apply wf_map_cells; exact HwL|].
  intros i j Hi Hj.
  destruct (getitem_in_range L i j HwL Hi Hj) as [l Hl].
  assert (Hnan : isnan l = false).
  { pose proof (getitem_all_cells isfinite L i j l Hfin Hl) as Hf.
    destruct l; try discriminate; reflexivity. }
  exists l, (maximum_cell zero l).
  split; [exact Hl|].
  split.
  { unfold R, reconstruct_X_from_L, maximum_scalar.
    rewrite getitem_map_cells, Hl; reflexivity. }
  split; [apply maximum_cell_zero_py_max; exact Hnan|].
  split; [apply maximum_cell_zero_not_negative|].
  split; [apply maximum_cell_zero_nonneg; exact Hnan|].
  split; [apply maximum_cell_zero_fixes_nonneg|apply maximum_cell_zero_positive].
Qed.

Lemma reconstruct_X_from_L_clips_witness :
  wf L0 = true /\ all_cells isfinite L0 = true /\
  shape (reconstruct_X_from_L L0) = (2, 2) /\
  exists r, getitem (reconstruct_X_from_L L0) 0 1 = Some r /\
            eqb r (py_max zero f_m0_3) = true /\ lt r zero = false.
Proof.
  split; [reflexivity|]. split; [reflexivity|].
  destruct (reconstruct_X_from_L_clips L0 eq_refl eq_refl)
    as [Hshape [_ Hcells]].
  split; [exact Hshape|].
  destruct (Hcells 0 1) as [l [r [Hl [Hr [E [Hneg _]]]]]];
    [simpl; lia | simpl; lia |].
  injection Hl as <-.
  exists r; auto.
Defined.

(** C7. [reconstruct_X_from_L] is idempotent on every matrix, whatever its
    cells (NaN and infinities included) and whether or not its rows agree
    with its shape: the two results are the same array. *)
Theorem reconstruct_X_from_L_idempotent (L : ndarray float64) :
  reconstruct_X_from_L (reconstruct_X_from_L L) = reconstruct_X_from_L L.
Proof.
  unfold reconstruct_X_from_L, maximum_scalar, map_cells; cbn [nrows ncols rows].
  f_equal.
  rewrite map_map.
  apply map_ext; intros r.
  rewrite map_map.
  apply map_ext; intros y.
  apply maximum_cell_zero_idem.
Qed.

(** C9. Clipping the utility matrix gives back the observed matrix: for a
    nonnegative [X] and any [L] of the same shape,
    [reconstruct_X_from_L(construct_utility(L, X))] has the shape of [X] and
    equals [X] cell by cell (as numbers). *)
Theorem reconstruct_construct_utility_roundtrip (L X : ndarray float64) :
  wf L = true -> wf X = true -> shape L = shape X ->
  all_cells (fun x => ge x zero) X = true ->
  exists Z,
    construct_utility L X = Ok Z /\
    shape (reconstruct_X_from_L Z) = shape X /\
    wf (reconstruct_X_from_L Z) = true /\
    forall i j, i < nrows X -> j < ncols X ->
      exists x r,
        getitem X i j = Some x /\
        getitem (reconstruct_X_from_L Z) i j = Some r /\
        eqb r x = true.
Proof.
  intros HwL HwX Hs Hpos.
  destruct (same_shape_bounds L X Hs) as [Hr Hc].
  pose proof (construct_utility_same_shape L X Hs) as HZ.
  eexists; split; [exact HZ|].
  split; [reflexivity|].
  split; [apply wf_map_cells;
          exact (wf_construct_utility L X _ HwL HwX Hs HZ)|].
  intros i j Hi Hj.
  destruct (getitem_in_range X i j HwX Hi Hj) as [x Hx].
  destruct (getitem_in_range L i j HwL) as [l Hl]; [lia | lia |].
  exists x, (maximum_cell zero (utility_cell l x)).
  split; [exact Hx|].
  split.
  - unfold reconstruct_X_from_L, maximum_scalar.
    rewrite getitem_map_cells.
    rewrite (getitem_construct_utility L X _ i j l x Hs HZ Hi Hj Hl Hx).
    reflexivity.
  - apply maximum_utility_cell.
    exact (getitem_all_cells (fun x => ge x zero) X i j x Hpos Hx).
Qed.

Lemma reconstruct_construct_utility_roundtrip_witness :
  wf L0 = true /\ wf X0 = true /\ shape L0 = shape X0 /\
  all_cells (fun x => ge x zero) X0 = true /\
  exists Z, construct_utility L0 X0 = Ok Z /\
            shape (reconstruct_X_from_L Z) = shape X0 /\
            exists r, getitem (reconstruct_X_from_L Z) 0 1 = Some r /\
                      eqb r zero = true.
Proof.
  split; [reflexivity|]. split; [reflexivity|]. split; [reflexivity|].
  split; [reflexivity|].
  destruct (reconstruct_construct_utility_roundtrip L0 X0
              eq_refl eq_refl eq_refl eq_refl) as [Z [HZ [Hshape [_ Hcells]]]].
  exists Z.
  split; [exact HZ|]. split; [exact Hshape|].
  destruct (Hcells 0 1) as [x [r [Hx [Hr E]]]]; [simpl; lia | simpl; lia |].
  injection Hx as <-.
  exists r; auto.
Defined.

(** ** Momentum *)

(** The momentum step with [beta = 0.0] gives back [current_X], cell by
    cell, as long as no difference [current_X[i,j] - previous_X[i,j]]
    overflows. *)
Lemma apply_momentum_beta_zero_without_overflow
      (current_X previous_X : ndarray float64) :
  wf current_X = true -> wf previous_X = true ->
  shape current_X = shape previous_X ->
  all_cells isfinite current_X = true ->
  (forall i j c p, getitem current_X i j = Some c ->
                   getitem previous_X i j = Some p ->
                   isfinite (sub c p) = true) ->
  exists R,
    apply_momentum current_X previous_X zero = Ok R /\
    shape R = shape current_X /\
    forall i j, i < nrows current_X -> j < ncols current_X ->
      exists c r,
        getitem current_X i j = Some c /\ getitem R i j = Some r /\
        eqb r c = true.
Proof.
  intros Hwc Hwp Hs Hfin Hdiff.
  destruct (same_shape_bounds current_X previous_X Hs) as [Hr Hc].
  pose proof (apply_momentum_same_shape current_X previous_X zero Hs) as HR.
  eexists; split; [exact HR|].
  split; [reflexivity|].
  intros i j Hi Hj.
  destruct (getitem_in_range current_X i j Hwc Hi Hj) as [c Hcell].
  destruct (getitem_in_range previous_X i j Hwp) as [p Hp]; [lia | lia |].
  exists c, (Float64.add c (mul zero (sub c p))).
  split; [exact Hcell|].
  split.
  - exact (getitem_apply_momentum current_X previous_X _ zero i j c p
             Hs HR Hcell Hp).
  - apply momentum_cell_beta_zero.
    + exact (getitem_all_cells isfinite current_X i j c Hfin Hcell).
    + exact (Hdiff i j c p Hcell Hp).
Qed.

(** C5.  The docstring of [apply_momentum] promises that [beta = 0.0]
    disables the step ([np.array_equal(X, post_momentum_X)]).  The code
    still evaluates [current_X - previous_X]: on the finite matrices
    [[[1.7976931348623157e308]]] and [[[-1.7976931348623157e308]]] the
    difference overflows to [inf], [0.0 * inf] is NaN and the returned cell
    is NaN, which differs from the cell of [current_X]. *)
Theorem apply_momentum_beta_zero_overflow :
  let current_X := mat 1 1 [[f_max]] in
  let previous_X := mat 1 1 [[f_mmax]] in
  wf current_X = true /\ wf previous_X = true /\
  shape current_X = shape previous_X /\
  all_cells isfinite current_X = true /\ all_cells isfinite previous_X = true /\
  all_cells valid current_X = true /\ all_cells valid previous_X = true /\
  sub f_max f_mmax = S754_infinity false /\
  apply_momentum current_X previous_X zero = Ok (mat 1 1 [[S754_nan]]) /\
  eqb S754_nan f_max = false.
Proof. vm_compute; repeat split. Qed.

(** C6, as amended.  On operands of one shape [apply_momentum] returns a
    matrix of that shape whose every cell is the float64 value of
    [current[i,j] + beta * (current[i,j] - previous[i,j])], each of the
    three operations rounded to nearest, for any [beta].  With [beta = 1.0]
    the product is exact, so the cell is
    [current[i,j] + (current[i,j] - previous[i,j])], rounded twice (the
    cells being float64 values). *)
Theorem apply_momentum_formula
        (current_X previous_X : ndarray float64) (beta : float64) :
  wf current_X = true -> wf previous_X = true ->
  shape current_X = shape previous_X ->
  exists R,
    apply_momentum current_X previous_X beta = Ok R /\
    shape R = shape current_X /\ wf R = true /\
    forall i j, i < nrows current_X -> j < ncols current_X ->
      exists c p r,
        getitem current_X i j = Some c /\ getitem previous_X i j = Some p /\
        getitem R i j = Some r /\
        r = Float64.add c (mul beta (sub c p)) /\
        (beta = one -> valid c = true -> valid p = true ->
         r = Float64.add c (sub c p)).
Proof.
  intros Hwc Hwp Hs.
  destruct (same_shape_bounds current_X previous_X Hs) as [Hr Hc].
  pose proof (apply_momentum_same_shape current_X previous_X beta Hs) as HR.
  eexists; split; [exact HR|].
  split; [reflexivity|].
  split; [exact (wf_apply_momentum current_X previous_X _ beta Hwc Hwp Hs HR)|].
  intros i j Hi Hj.
  destruct (getitem_in_range current_X i j Hwc Hi Hj) as [c Hcell].
  destruct (getitem_in_range previous_X i j Hwp) as [p Hp]; [lia | lia |].
  exists c, p, (Float64.add c (mul beta (sub c p))).
  split; [exact Hcell|]. split; [exact Hp|].
  split.
  - exact (getitem_apply_momentum current_X previous_X _ beta i j c p
             Hs HR Hcell Hp).
  - split; [reflexivity|].
    intros -> Hvc Hvp.
    rewrite (mul_one_l _ (sub_valid c p Hvc Hvp)); reflexivity.
Qed.

Lemma apply_momentum_formula_witness :
  let current_X := mat 1 2 [[f_2; f_2]] in
  let previous_X := mat 1 2 [[f_1; f_1]] in
  wf current_X = true /\ wf previous_X = true /\
  shape current_X = shape previous_X /\
  one = one /\ valid f_2 = true /\ valid f_1 = true /\
  exists R, apply_momentum current_X previous_X one = Ok R /\
            shape R = (1, 2) /\
            getitem R 0 1 = Some (Float64.add f_2 (mul one (sub f_2 f_1))) /\
            getitem R 0 1 = Some (Float64.add f_2 (sub f_2 f_1)).
Proof.
  cbv zeta.
  split; [reflexivity|]. split; [reflexivity|]. split; [reflexivity|].
  split; [reflexivity|]. split; [reflexivity|]. split; [reflexivity|].
  destruct (apply_momentum_formula (mat 1 2 [[f_2; f_2]]) (mat 1 2 [[f_1; f_1]])
              one eq_refl eq_refl eq_refl) as [R [HR [Hshape [_ Hcells]]]].
  exists R.
  split; [exact HR|]. split; [exact Hshape|].
  destruct (Hcells 0 1) as [c [p [r [Hc [Hp [Hr [E E1]]]]]]];
    [simpl; lia | simpl; lia |].
  injection Hc as <-; injection Hp as <-.
  split.
  - rewrite Hr, E; reflexivity.
  - rewrite Hr, (E1 eq_refl eq_refl eq_refl); reflexivity.
Defined.

(** C6 fails as stated: with [beta = 1.0], [current = 1.0000000000000002]
    and [previous = -3 * 2^-54] the returned cell is [2.000000000000001],
    while [2*current - previous] evaluates to [2.0000000000000004]; the
    returned cell is not the exact value of [2*current - previous] either
    (values scaled by [2^105]). *)
Lemma apply_momentum_doubling_rounds_twice :
  let current_X := mat 1 1 [[f_1_next]] in
  let previous_X := mat 1 1 [[f_m3_54]] in
  wf current_X = true /\ wf previous_X = true /\
  shape current_X = shape previous_X /\
  all_cells valid current_X = true /\ all_cells valid previous_X = true /\
  apply_momentum current_X previous_X one = Ok (mat 1 1 [[f_2_next2]]) /\
  sub (mul two f_1_next) f_m3_54 = f_2_next /\
  eqb f_2_next2 f_2_next = false /\
  exists r c p,
    scaled_value 105 f_2_next2 = Some r /\
    scaled_value 105 f_1_next = Some c /\
    scaled_value 105 f_m3_54 = Some p /\
    r <> (2 * c - p)%Z.
Proof.
  cbv zeta.
  repeat (split; [vm_compute; reflexivity|]).
  eexists _, _, _.
  repeat (split; [vm_compute; reflexivity|]).
  vm_compute; discriminate.
Qed.

(** C10, as amended.  On a stationary sequence of finite matrices the
    momentum step changes nothing: for a matrix [M] whose cells are all
    finite and a finite [beta], [apply_momentum(M, M, beta)] has the shape
    of [M] and equals [M] cell by cell (as numbers), whatever the finite
    [beta]. *)
Theorem apply_momentum_stationary (M : ndarray float64) (beta : float64) :
  wf M = true -> all_cells isfinite M = true -> isfinite beta = true ->
  exists R,
    apply_momentum M M beta = Ok R /\
    shape R = shape M /\ wf R = true /\
    forall i j, i < nrows M -> j < ncols M ->
      exists m r,
        getitem M i j = Some m /\ getitem R i j = Some r /\ eqb r m = true.
Proof.
  intros Hw Hfin Hbeta.
  pose proof (apply_momentum_same_shape M M beta eq_refl) as HR.
  eexists; split; [exact HR|].
  split; [reflexivity|].
  split; [exact (wf_apply_momentum M M _ beta Hw Hw eq_refl HR)|].
  intros i j Hi Hj.
  destruct (getitem_in_range M i j Hw Hi Hj) as [m Hm].
  exists m, (Float64.add m (mul beta (sub m m))).
  split; [exact Hm|].
  split.
  - exact (getitem_apply_momentum M M _ beta i j m m eq_refl HR Hm Hm).
  - apply momentum_cell_stationary; [|exact Hbeta].
    exact (getitem_all_cells isfinite M i j m Hfin Hm).
Qed.

Lemma apply_momentum_stationary_witness :
  wf L0 = true /\ all_cells isfinite L0 = true /\ isfinite f_0_5 = true /\
  exists R, apply_momentum L0 L0 f_0_5 = Ok R /\ shape R = (2, 2) /\
            exists r, getitem R 0 1 = Some r /\ eqb r f_m0_3 = true.
Proof.
  split; [reflexivity|]. split; [reflexivity|]. split; [reflexivity|].
  destruct (apply_momentum_stationary L0 f_0_5 eq_refl eq_refl eq_refl)
    as [R [HR [Hshape [_ Hcells]]]].
  exists R.
  split; [exact HR|]. split; [exact Hshape|].
  destruct (Hcells 0 1) as [m [r [Hm [Hr E]]]]; [simpl; lia | simpl; lia |].
  injection Hm as <-.
  exists r; auto.
Defined.

(** C10 fails as stated: [M = [[1.0, inf]]] is a matrix, and with
    [beta = 0.5] the code computes [inf - inf], which is NaN, so the second
    cell of [apply_momentum(M, M, beta)] is NaN and not [inf]. *)
Lemma apply_momentum_stationary_fails_at_infinity :
  let M := mat 1 2 [[f_1; S754_infinity false]] in
  wf M = true /\ all_cells valid M = true /\ isfinite f_0_5 = true /\
  apply_momentum M M f_0_5 = Ok (mat 1 2 [[f_1; S754_nan]]) /\
  getitem M 0 1 = Some (S754_infinity false) /\
  eqb S754_nan (S754_infinity false) = false.
Proof. vm_compute; repeat split. Qed.

(** ** Kernel return types *)

(** C4, as amended.  The dataclasses define no [__post_init__] and check
    nothing: constructing a [SingleVarianceGaussianModelKernelReturnType] or
    a [RowwiseVarianceGaussianModelKernelReturnType] returns, whatever the
    sign of the variance, an object whose fields are the arguments. *)
Theorem variance_is_stored_unchecked
        (reconstruction : SolutionType) (variance : float64)
        (variances : list float64) :
  (exists d,
     SingleVarianceGaussianModelKernelReturnType_init reconstruction variance
       = Ok d /\
     sv_reconstruction d = reconstruction /\ sv_variance d = variance) /\
  (exists d,
     RowwiseVarianceGaussianModelKernelReturnType_init reconstruction variances
       = Ok d /\
     rv_reconstruction d = reconstruction /\ rv_variance d = variances).
Proof. split; eexists; repeat split. Qed.

(** C4 fails as stated: the variance [-1.0], alone or in a vector, is
    accepted. *)
Lemma negative_variance_is_accepted :
  lt f_m1 zero = true /\
  SingleVarianceGaussianModelKernelReturnType_init X0 f_m1 =
    Ok {| sv_reconstruction := X0; sv_variance := f_m1 |} /\
  RowwiseVarianceGaussianModelKernelReturnType_init X0 [f_1; f_m1] =
    Ok {| rv_reconstruction := X0; rv_variance := [f_1; f_m1] |}.
Proof. repeat split. Qed.



(** * Further properties of the operations *)

(** ** Cells of broadcast operands *)

Lemma broadcast_dim_some (d1 d2 d : nat) :
  broadcast_dim d1 d2 = Some d ->
  (d1 = d \/ d1 = 1) /\ (d2 = d \/ d2 = 1).
Proof.
  unfold broadcast_dim.
  destruct (Nat.eqb_spec d1 d2) as [->|Hne].
  - intros [= ->]; auto.
  - destruct (Nat.eqb_spec d1 1) as [->|H1].
    + intros [= ->]; auto.
    + destruct (Nat.eqb_spec d2 1) as [->|H2]; [|discriminate].
      intros [= ->]; auto.
Qed.

Lemma broadcast_shapes_some (s1 s2 s : nat * nat) :
  broadcast_shapes s1 s2 = Some s ->
  ((fst s1 = fst s \/ fst s1 = 1) /\ (snd s1 = snd s \/ snd s1 = 1)) /\
  ((fst s2 = fst s \/ fst s2 = 1) /\ (snd s2 = snd s \/ snd s2 = 1)).
Proof.
  unfold broadcast_shapes.
  destruct (broadcast_dim (fst s1) (fst s2)) as [m|] eqn:Em; [|discriminate].
  destruct (broadcast_dim (snd s1) (snd s2)) as [n|] eqn:En; [|discriminate].
  intros [= <-]; cbn [fst snd].
  destruct (broadcast_dim_some _ _ _ Em) as [? ?].
  destruct (broadcast_dim_some _ _ _ En) as [? ?].
  auto.
Qed.

Lemma broadcast_index_lt (d t i : nat) :
  d = t \/ d = 1 -> i < t -> broadcast_index d i < d.
Proof.
  unfold broadcast_index; intros Hd Hi.
  destruct (Nat.eqb_spec d 1); lia.
Qed.

Lemma nth_error_stretch {A : Type} (d t : nat) (l : list A) (i : nat) :
  length l = d -> d = t \/ d = 1 -> i < t ->
  nth_error (stretch d t l) i = nth_error l (broadcast_index d i).
Proof.
  intros Hl Hd Hi.
  unfold stretch, broadcast_index.
  destruct (Nat.eqb_spec d t) as [E|E].
  - destruct (Nat.eqb_spec d 1) as [E1|_]; [|reflexivity].
    replace i with 0 by lia; reflexivity.
  - destruct Hd as [Hd|Hd]; [contradiction|].
    rewrite Hd, Nat.eqb_refl.
    destruct l as [|x [|y l]]; simpl in Hl; try lia.
    apply (nth_error_repeat x Hi).
Qed.

Lemma length_stretch {A : Type} (d t : nat) (l : list A) :
  length l = d -> d = t \/ (d = 1) -> length (stretch d t l) = t.
Proof.
  intros Hl Hd.
  unfold stretch.
  destruct (Nat.eqb_spec d t) as [E|E]; [lia|].
  destruct Hd as [Hd|Hd]; [contradiction|].
  destruct l as [|x l]; simpl in Hl; [lia|].
  apply repeat_length.
Qed.

(** A cell of a broadcast array is the cell of the array at the broadcast
    indices. *)
Lemma getitem_broadcast_to {A : Type} (s : nat * nat) (a : ndarray A)
      (i j : nat) :
  wf a = true ->
  nrows a = fst s \/ nrows a = 1 -> ncols a = snd s \/ ncols a = 1 ->
  i < fst s -> j < snd s ->
  getitem (broadcast_to s a) i j =
  getitem a (broadcast_index (nrows a) i) (broadcast_index (ncols a) j).
Proof.
  intros Hwf Hr Hc Hi Hj.
  destruct (wf_length a Hwf) as [Hlen Hrow].
  unfold getitem, broadcast_to; cbn [rows].
  rewrite nth_error_stretch by (rewrite ?length_map; auto).
  rewrite nth_error_map.
  destruct (nth_error (rows a) (broadcast_index (nrows a) i)) as [r|] eqn:Er;
    cbn [option_map]; [|reflexivity].
  apply nth_error_stretch; auto.
  exact (Hrow _ _ Er).
Qed.

Lemma wf_broadcast_to {A : Type} (s : nat * nat) (a : ndarray A) :
  wf a = true ->
  nrows a = fst s \/ nrows a = 1 -> ncols a = snd s \/ ncols a = 1 ->
  wf (broadcast_to s a) = true.
Proof.
  intros Hwf Hr Hc.
  destruct (wf_length a Hwf) as [Hlen Hrow].
  assert (Hin : forall r, In r (rows a) -> length r = ncols a).
  { intros r Hr0. destruct (In_nth_error _ _ Hr0) as [k Hk]. eauto. }
  unfold wf, broadcast_to; cbn [rows nrows ncols].
  apply andb_true_iff; split.
  - apply Nat.eqb_eq, length_stretch; [|exact Hr].
    rewrite length_map; exact Hlen.
  - apply forallb_forall; intros r Hr0.
    apply Nat.eqb_eq.
    unfold stretch in Hr0 at 1.
    destruct (nrows a =? fst s).
    + apply in_map_iff in Hr0; destruct Hr0 as [r0 [<- Hr0]].
      apply length_stretch; auto.
    + destruct (map (stretch (ncols a) (snd s)) (rows a)) as [|x l] eqn:E;
        [contradiction|].
      apply repeat_spec in Hr0; subst r.
      assert (Hx : In x (map (stretch (ncols a) (snd s)) (rows a)))
        by (rewrite E; left; reflexivity).
      apply in_map_iff in Hx; destruct Hx as [r0 [<- Hr0]].
      apply length_stretch; auto.
Qed.

Lemma getitem_bounds {A : Type} (a : ndarray A) (i j : nat) (x : A) :
  wf a = true -> getitem a i j = Some x -> i < nrows a /\ j < ncols a.
Proof.
  intros Hwf Hx.
  destruct (wf_length a Hwf) as [Hlen Hrow].
  unfold getitem in Hx.
  destruct (nth_error (rows a) i) as [r|] eqn:Er; [|discriminate].
  split.
  - rewrite <- Hlen; apply nth_error_Some; congruence.
  - rewrite <- (Hrow i r Er); apply nth_error_Some; congruence.
Qed.

(** Two arrays of one shape with the same cells are the same array. *)
Lemma ndarray_ext {A : Type} (a b : ndarray A) :
  wf a = true -> wf b = true -> shape a = shape b ->
  (forall i j, i < nrows a -> j < ncols a -> getitem a i j = getitem b i j) ->
  a = b.
Proof.
  intros Ha Hb Hs Hcells.
  destruct (wf_length a Ha) as [Hla Hra].
  destruct (wf_length b Hb) as [Hlb Hrb].
  destruct (same_shape_bounds a b Hs) as [Hr Hc].
  assert (Hrows : rows a = rows b).
  { apply nth_error_ext; intros i.
    destruct (nth_error (rows a) i) as [ra|] eqn:Ea.
    - assert (Hi : i < nrows a)
        by (rewrite <- Hla; apply nth_error_Some; congruence).
      destruct (nth_error (rows b) i) as [rb|] eqn:Eb.
      + f_equal. apply nth_error_ext; intros j.
        destruct (Nat.lt_ge_cases j (ncols a)) as [Hj|Hj].
        * specialize (Hcells i j Hi Hj).
          unfold getitem in Hcells; rewrite Ea, Eb in Hcells; exact Hcells.
        * pose proof (Hra i ra Ea); pose proof (Hrb i rb Eb).
          transitivity (@None A); [|symmetry]; apply nth_error_None; lia.
      + apply nth_error_None in Eb; lia.
    - symmetry; apply nth_error_None.
      apply nth_error_None in Ea; lia. }
  destruct a, b; cbn in *; congruence.
Qed.

Lemma shape_full {A : Type} (s : nat * nat) (v : A) : shape (full s v) = s.
Proof. destruct s; reflexivity. Qed.

(** ** [construct_utility] on broadcast operands *)

(** X1. On operands that broadcast to the shape [s], [construct_utility]
    returns a matrix of shape [s] whose cell [(i, j)] is the cell rule applied
    to the cells of [L] and [X] at the broadcast indices: along an axis of
    extent 1 an operand is read at index 0. *)
Theorem construct_utility_broadcast_cells (L X : ndarray float64)
        (s : nat * nat) :
  wf L = true -> wf X = true ->
  broadcast_shapes (shape L) (shape X) = Some s ->
  exists Z,
    construct_utility L X = Ok Z /\ shape Z = s /\ wf Z = true /\
    forall i j, i < fst s -> j < snd s ->
      exists l x,
        getitem L (broadcast_index (nrows L) i) (broadcast_index (ncols L) j)
          = Some l /\
        getitem X (broadcast_index (nrows X) i) (broadcast_index (ncols X) j)
          = Some x /\
        getitem Z i j =
          Some (if gt x zero then x else if lt l zero then l else zero).
Proof.
  intros HwL HwX Hs.
  destruct (broadcast_shapes_some _ _ _ Hs) as [[HLr HLc] [HXr HXc]].
  cbn [shape fst snd] in HLr, HLc, HXr, HXc.
  rewrite broadcast_shapes_comm in Hs.
  pose proof (construct_utility_broadcast L X s Hs) as HZ.
  eexists; split; [exact HZ|].
  split; [rewrite !shape_copyto; apply shape_full|].
  assert (HwbL : wf (broadcast_to s L) = true)
    by (apply wf_broadcast_to; assumption).
  assert (HwbX : wf (broadcast_to s X) = true)
    by (apply wf_broadcast_to; assumption).
  assert (HwlL : wf (broadcast_to s (less_scalar L zero)) = true)
    by (apply wf_broadcast_to; [apply wf_map_cells| |]; assumption).
  assert (HwgX : wf (broadcast_to s (greater_scalar X zero)) = true)
    by (apply wf_broadcast_to; [apply wf_map_cells| |]; assumption).
  split.
  { apply wf_copyto;
      [apply wf_copyto;
         [apply wf_full | exact HwbL | exact HwlL
         | rewrite shape_full; apply shape_broadcast_to
         | rewrite shape_full; apply shape_broadcast_to]
      | exact HwbX | exact HwgX
      | rewrite shape_copyto, shape_full; apply shape_broadcast_to
      | rewrite shape_copyto, shape_full; apply shape_broadcast_to]. }
  intros i j Hi Hj.
  destruct (getitem_in_range L (broadcast_index (nrows L) i)
              (broadcast_index (ncols L) j) HwL) as [l Hl];
    [eapply broadcast_index_lt; eassumption ..|].
  destruct (getitem_in_range X (broadcast_index (nrows X) i)
              (broadcast_index (ncols X) j) HwX) as [x Hx];
    [eapply broadcast_index_lt; eassumption ..|].
  exists l, x.
  split; [exact Hl|]. split; [exact Hx|].
  rewrite getitem_copyto
    by (rewrite shape_copyto, shape_full; apply shape_broadcast_to).
  rewrite getitem_copyto by (rewrite shape_full; apply shape_broadcast_to).
  rewrite getitem_full by assumption.
  rewrite !getitem_broadcast_to
    by (try apply wf_map_cells; assumption).
  unfold greater_scalar, less_scalar.
  rewrite !getitem_map_cells.
  cbn [map_cells nrows ncols].
  rewrite Hl, Hx.
  cbn [option_map].
  destruct (gt x zero), (lt l zero); reflexivity.
Qed.

(** ** [apply_momentum] on broadcast operands *)

Lemma apply_momentum_broadcast_eq (current_X previous_X : ndarray float64)
      (beta : float64) (s : nat * nat) :
  broadcast_shapes (shape current_X) (shape previous_X) = Some s ->
  apply_momentum current_X previous_X beta =
  Ok (mk_ndarray (fst s) (snd s)
        (zip_with (zip_with Float64.add) (rows (broadcast_to s current_X))
           (map (map (fun x => mul beta x))
              (zip_with (zip_with sub) (rows (broadcast_to s current_X))
                                       (rows (broadcast_to s previous_X)))))).
Proof.
  intros Hs.
  unfold apply_momentum, subtract, Numpy.add, ufunc2.
  rewrite Hs; cbn [Py.bind].
  unfold multiply_scalar; rewrite shape_map_cells.
  destruct s as [m n]; cbn [fst snd].
  change (shape {| nrows := m; ncols := n;
                   rows := zip_with (zip_with sub)
                             (rows (broadcast_to (m, n) current_X))
                             (rows (broadcast_to (m, n) previous_X)) |})
    with (m, n).
  rewrite (broadcast_shapes_left _ _ _ Hs); cbn [fst snd].
  do 2 f_equal.
  set (d := map_cells (fun x => mul beta x) _).
  change (m, n) with (shape d) at 2.
  rewrite broadcast_to_shape_id.
  reflexivity.
Qed.

(** X2. On operands that broadcast to the shape [s], [apply_momentum]
    returns a matrix of shape [s] whose cell [(i, j)] is
    [c + beta * (c - p)] for the cells [c] of [current_X] and [p] of
    [previous_X] at the broadcast indices. *)
Theorem apply_momentum_broadcast_cells (current_X previous_X : ndarray float64)
        (beta : float64) (s : nat * nat) :
  wf current_X = true -> wf previous_X = true ->
  broadcast_shapes (shape current_X) (shape previous_X) = Some s ->
  exists R,
    apply_momentum current_X previous_X beta = Ok R /\
    shape R = s /\ wf R = true /\
    forall i j, i < fst s -> j < snd s ->
      exists c p,
        getitem current_X (broadcast_index (nrows current_X) i)
                          (broadcast_index (ncols current_X) j) = Some c /\
        getitem previous_X (broadcast_index (nrows previous_X) i)
                           (broadcast_index (ncols previous_X) j) = Some p /\
        getitem R i j = Some (Float64.add c (mul beta (sub c p))).
Proof.
  intros Hwc Hwp Hs.
  destruct (broadcast_shapes_some _ _ _ Hs) as [[Hcr Hcc] [Hpr Hpc]].
  cbn [shape fst snd] in Hcr, Hcc, Hpr, Hpc.
  pose proof (apply_momentum_broadcast_eq current_X previous_X beta s Hs) as HR.
  eexists; split; [exact HR|].
  split; [destruct s; reflexivity|].
  pose proof (wf_broadcast_to s current_X Hwc Hcr Hcc) as Hwbc.
  pose proof (wf_broadcast_to s previous_X Hwp Hpr Hpc) as Hwbp.
  split.
  { apply wf_zip_with; [exact Hwbc|].
    apply (wf_map_cells (fun x => mul beta x)
             (mk_ndarray (fst s) (snd s)
                (zip_with (zip_with sub) (rows (broadcast_to s current_X))
                                         (rows (broadcast_to s previous_X))))).
    apply wf_zip_with; assumption. }
  intros i j Hi Hj.
  destruct (getitem_in_range current_X (broadcast_index (nrows current_X) i)
              (broadcast_index (ncols current_X) j) Hwc) as [c Hc];
    [eapply broadcast_index_lt; eassumption ..|].
  destruct (getitem_in_range previous_X (broadcast_index (nrows previous_X) i)
              (broadcast_index (ncols previous_X) j) Hwp) as [p Hp];
    [eapply broadcast_index_lt; eassumption ..|].
  exists c, p.
  split; [exact Hc|]. split; [exact Hp|].
  rewrite getitem_zip_with.
  change (mk_ndarray (fst s) (snd s)
            (map (map (fun x => mul beta x))
               (zip_with (zip_with sub) (rows (broadcast_to s current_X))
                                        (rows (broadcast_to s previous_X)))))
    with (map_cells (fun x => mul beta x)
            (mk_ndarray (fst s) (snd s)
               (zip_with (zip_with sub) (rows (broadcast_to s current_X))
                                        (rows (broadcast_to s previous_X))))).
  rewrite getitem_map_cells, getitem_zip_with.
  change (getitem (mk_ndarray (fst s) (snd s) (rows (broadcast_to s current_X))) i j)
    with (getitem (broadcast_to s current_X) i j).
  change (getitem (mk_ndarray (fst s) (snd s) (rows (broadcast_to s previous_X))) i j)
    with (getitem (broadcast_to s previous_X) i j).
  rewrite !getitem_broadcast_to by assumption.
  rewrite Hc, Hp.
  reflexivity.
Qed.

(** ** Every successful call, cell by cell *)

Lemma broadcast_index_id (d i : nat) : i < d -> broadcast_index d i = i.
Proof.
  unfold broadcast_index; intros Hi.
  destruct (Nat.eqb_spec d 1); lia.
Qed.

(** Whenever [construct_utility] returns, its operands broadcast to the
    shape of the result and every cell of the result is the cell rule at the
    broadcast indices. *)
Lemma construct_utility_ok_cells (L X Z : ndarray float64) :
  wf L = true -> wf X = true -> construct_utility L X = Ok Z ->
  wf Z = true /\
  broadcast_shapes (shape L) (shape X) = Some (shape Z) /\
  forall i j z, getitem Z i j = Some z ->
    exists l x,
      getitem L (broadcast_index (nrows L) i) (broadcast_index (ncols L) j)
        = Some l /\
      getitem X (broadcast_index (nrows X) i) (broadcast_index (ncols X) j)
        = Some x /\
      z = utility_cell l x.
Proof.
  intros HwL HwX HZ.
  destruct (broadcast_shapes (shape L) (shape X)) as [s|] eqn:Hs.
  - destruct (construct_utility_broadcast_cells L X s HwL HwX Hs)
      as [Z' [HZ' [Hshape [Hwf Hcells]]]].
    rewrite HZ in HZ'; injection HZ' as <-.
    split; [exact Hwf|].
    split; [congruence|].
    intros i j z Hz.
    destruct (getitem_bounds Z i j z Hwf Hz) as [Hi Hj].
    assert (Hr : nrows Z = fst s) by (rewrite <- Hshape; reflexivity).
    assert (Hc : ncols Z = snd s) by (rewrite <- Hshape; reflexivity).
    destruct (Hcells i j) as [l [x [Hl [Hx Hz']]]]; [lia | lia |].
    exists l, x.
    split; [exact Hl|]. split; [exact Hx|].
    unfold utility_cell; congruence.
  - rewrite broadcast_shapes_comm in Hs.
    rewrite (construct_utility_mismatch L X Hs) in HZ; discriminate.
Qed.

Lemma apply_momentum_ok_cells (current_X previous_X R : ndarray float64)
      (beta : float64) :
  wf current_X = true -> wf previous_X = true ->
  apply_momentum current_X previous_X beta = Ok R ->
  wf R = true /\
  broadcast_shapes (shape current_X) (shape previous_X) = Some (shape R) /\
  forall i j r, getitem R i j = Some r ->
    exists c p,
      getitem current_X (broadcast_index (nrows current_X) i)
                        (broadcast_index (ncols current_X) j) = Some c /\
      getitem previous_X (broadcast_index (nrows previous_X) i)
                         (broadcast_index (ncols previous_X) j) = Some p /\
      r = Float64.add c (mul beta (sub c p)).
Proof.
  intros Hwc Hwp HR.
  destruct (broadcast_shapes (shape current_X) (shape previous_X))
    as [s|] eqn:Hs.
  - destruct (apply_momentum_broadcast_cells current_X previous_X beta s
                Hwc Hwp Hs) as [R' [HR' [Hshape [Hwf Hcells]]]].
    rewrite HR in HR'; injection HR' as <-.
    split; [exact Hwf|].
    split; [congruence|].
    intros i j r Hr0.
    destruct (getitem_bounds R i j r Hwf Hr0) as [Hi Hj].
    assert (Hr : nrows R = fst s) by (rewrite <- Hshape; reflexivity).
    assert (Hc : ncols R = snd s) by (rewrite <- Hshape; reflexivity).
    destruct (Hcells i j) as [c [p [Hc0 [Hp Hr']]]]; [lia | lia |].
    exists c, p.
    split; [exact Hc0|]. split; [exact Hp|].
    congruence.
  - rewrite (apply_momentum_mismatch current_X previous_X beta Hs) in HR.
    discriminate.
Qed.

(** ** Cell facts *)

Lemma utility_cell_not_nan (l x : float64) : isnan (utility_cell l x) = false.
Proof.
  unfold utility_cell.
  destruct (gt x zero) eqn:Ex; [destruct x; try discriminate; reflexivity|].
  destruct (lt l zero) eqn:El; [destruct l; try discriminate; reflexivity|].
  reflexivity.
Qed.

Lemma utility_cell_idem (l x : float64) :
  utility_cell (utility_cell l x) x = utility_cell l x.
Proof.
  unfold utility_cell.
  destruct (gt x zero) eqn:Ex; [reflexivity|].
  destruct (lt l zero) eqn:El; [rewrite El; reflexivity|reflexivity].
Qed.

Lemma utility_cell_base_absorb (l l0 x : float64) :
  utility_cell l (utility_cell l0 x) = utility_cell l x.
Proof.
  unfold utility_cell.
  destruct (gt x zero) eqn:Ex; [rewrite Ex; reflexivity|].
  assert (H : gt (if lt l0 zero then l0 else zero) zero = false)
    by apply py_min_zero_not_positive.
  rewrite H; reflexivity.
Qed.

Lemma utility_cell_clipped_base (l x : float64) :
  utility_cell l (maximum_cell zero x) = utility_cell l x.
Proof.
  unfold utility_cell.
  rewrite maximum_cell_zero.
  destruct x as [[|]|[|]| |[|] ? ?]; reflexivity.
Qed.

Lemma utility_cell_of_clipped (l : float64) :
  (isnan l = false -> eqb (utility_cell l (maximum_cell zero l)) l = true) /\
  (isnan l = true -> utility_cell l (maximum_cell zero l) = zero).
Proof.
  unfold utility_cell.
  rewrite maximum_cell_zero.
  destruct l as [[|]|[|]| |[|] m e]; split; intros H;
    try discriminate; try reflexivity.
  - exact (eqb_refl (S754_finite true m e) eq_refl).
  - exact (eqb_refl (S754_finite false m e) eq_refl).
Qed.

Lemma utility_cell_le_base (l x : float64) :
  ge x zero = true -> le (utility_cell l x) x = true.
Proof.
  unfold utility_cell.
  destruct (gt x zero) eqn:Ex.
  - intros _; apply le_refl; destruct x; try discriminate; reflexivity.
  - destruct x as [[|]|[|]| |[|] ? ?]; try discriminate; intros _;
      destruct l as [[|]|[|]| |[|] ? ?]; reflexivity.
Qed.

Lemma maximum_cell_zero_mono (l1 l2 : float64) :
  le l1 l2 = true -> le (maximum_cell zero l1) (maximum_cell zero l2) = true.
Proof.
  rewrite !maximum_cell_zero.
  destruct l1 as [[|]|[|]| |[|] m1 e1], l2 as [[|]|[|]| |[|] m2 e2];
    try discriminate; try reflexivity; intros H; exact H.
Qed.

Lemma maximum_cell_zero_nonfinite (l : float64) :
  isnan (maximum_cell zero l) = isnan l /\
  (l = S754_infinity false -> maximum_cell zero l = S754_infinity false) /\
  (l = S754_infinity true -> maximum_cell zero l = zero) /\
  (isnan l = false -> le l (maximum_cell zero l) = true).
Proof.
  rewrite maximum_cell_zero.
  split; [destruct l as [[|]|[|]| |[|] ? ?]; reflexivity|].
  split; [intros ->; reflexivity|].
  split; [intros ->; reflexivity|].
  destruct l as [[|]|[|]| |[|] m e]; try discriminate; try reflexivity.
  intros _; exact (le_refl (S754_finite false m e) eq_refl).
Qed.

Lemma momentum_cell_nan (c p beta : float64) :
  isnan c || isnan p || isnan beta = true ->
  Float64.add c (mul beta (sub c p)) = S754_nan.
Proof.
  intros H.
  apply orb_true_iff in H; destruct H as [H|H];
    [apply orb_true_iff in H; destruct H as [H|H]|].
  - destruct c; try discriminate; reflexivity.
  - destruct p; try discriminate.
    assert (Hs : sub c S754_nan = S754_nan) by (destruct c; reflexivity).
    rewrite Hs.
    assert (Hm : mul beta S754_nan = S754_nan) by (destruct beta; reflexivity).
    rewrite Hm; destruct c; reflexivity.
  - destruct beta; try discriminate.
    change (mul S754_nan (sub c p)) with S754_nan.
    destruct c; reflexivity.
Qed.

(** ** What the utility matrix never holds, and its bounds *)

(** X3. No cell of a utility matrix is NaN, whatever the cells of the
    operands (NaN included) and whether or not the operands are broadcast:
    a NaN of [X] is not positive and a NaN of [L] is not negative, so
    neither is copied. *)
Theorem construct_utility_never_nan (L X Z : ndarray float64) :
  wf L = true -> wf X = true -> construct_utility L X = Ok Z ->
  forall i j z, getitem Z i j = Some z -> isnan z = false.
Proof.
  intros HwL HwX HZ i j z Hz.
  destruct (construct_utility_ok_cells L X Z HwL HwX HZ) as [_ [_ Hcells]].
  destruct (Hcells i j z Hz) as [l [x [_ [_ ->]]]].
  apply utility_cell_not_nan.
Qed.

(** X4. For a nonnegative [X] every cell of the utility matrix is at most
    the cell of [X] it is built from. *)
Theorem construct_utility_le_base (L X Z : ndarray float64) :
  wf L = true -> wf X = true ->
  all_cells (fun x => ge x zero) X = true ->
  construct_utility L X = Ok Z ->
  forall i j z, getitem Z i j = Some z ->
    exists x,
      getitem X (broadcast_index (nrows X) i) (broadcast_index (ncols X) j)
        = Some x /\
      le z x = true.
Proof.
  intros HwL HwX Hpos HZ i j z Hz.
  destruct (construct_utility_ok_cells L X Z HwL HwX HZ) as [_ [_ Hcells]].
  destruct (Hcells i j z Hz) as [l [x [_ [Hx ->]]]].
  exists x; split; [exact Hx|].
  apply utility_cell_le_base.
  exact (getitem_all_cells (fun x => ge x zero) X _ _ x Hpos Hx).
Qed.

(** ** How the operations compose *)

(** X5. Feeding a utility matrix back as the low-rank operand changes
    nothing: if [construct_utility(L, X)] returns [Z] then
    [construct_utility(Z, X)] returns [Z] again. *)
Theorem construct_utility_idempotent (L X Z : ndarray float64) :
  wf L = true -> wf X = true -> construct_utility L X = Ok Z ->
  construct_utility Z X = Ok Z.
Proof.
  intros HwL HwX HZ.
  destruct (construct_utility_ok_cells L X Z HwL HwX HZ)
    as [HwZ [Hs Hcells]].
  assert (Hs' : broadcast_shapes (shape Z) (shape X) = Some (shape Z)).
  { rewrite broadcast_shapes_comm.
    apply (broadcast_shapes_left (shape X) (shape L)).
    rewrite broadcast_shapes_comm; exact Hs. }
  destruct (construct_utility_broadcast_cells Z X (shape Z) HwZ HwX Hs')
    as [Z' [HZ' [Hshape [HwZ' Hcells']]]].
  rewrite HZ'; f_equal.
  apply ndarray_ext; auto.
  intros i j Hi Hj.
  destruct (same_shape_bounds Z' Z Hshape) as [Hr Hc].
  destruct (Hcells' i j) as [z [x [Hz [Hx Hz']]]];
    [cbn [shape fst]; lia | cbn [shape snd]; lia |].
  rewrite !broadcast_index_id in Hz by lia.
  rewrite Hz', Hz.
  destruct (Hcells i j z Hz) as [l [x' [_ [Hx' Ez]]]].
  assert (x' = x) by congruence; subst x'.
  f_equal.
  rewrite Ez.
  exact (utility_cell_idem l x).
Qed.

(** X6. Only the positive part of the base matrix matters: clipping [X]
    first gives the same outcome, result or error, so negative and NaN
    cells of [X] are treated like zeros. *)
Theorem construct_utility_clipped_base (L X : ndarray float64) :
  wf L = true -> wf X = true ->
  construct_utility L (reconstruct_X_from_L X) = construct_utility L X.
Proof.
  intros HwL HwX.
  set (X' := reconstruct_X_from_L X).
  assert (HwX' : wf X' = true) by (apply wf_map_cells; exact HwX).
  destruct (broadcast_shapes (shape L) (shape X)) as [s|] eqn:Hs.
  - destruct (construct_utility_broadcast_cells L X s HwL HwX Hs)
      as [Z [HZ [Hshape [HwZ Hcells]]]].
    destruct (construct_utility_broadcast_cells L X' s HwL HwX' Hs)
      as [Z' [HZ' [Hshape' [HwZ' Hcells']]]].
    rewrite HZ, HZ'; f_equal.
    apply ndarray_ext; [exact HwZ' | exact HwZ | congruence |].
    intros i j Hi Hj.
    assert (Hr : nrows Z' = fst s) by (rewrite <- Hshape'; reflexivity).
    assert (Hc : ncols Z' = snd s) by (rewrite <- Hshape'; reflexivity).
    destruct (Hcells i j) as [l [x [Hl [Hx Hz]]]]; [lia | lia |].
    destruct (Hcells' i j) as [l' [x' [Hl' [Hx' Hz']]]]; [lia | lia |].
    rewrite Hz, Hz'.
    assert (l' = l) by congruence; subst l'.
    unfold X', reconstruct_X_from_L, maximum_scalar in Hx'.
    rewrite getitem_map_cells in Hx'.
    cbn [map_cells nrows ncols] in Hx'.
    rewrite Hx in Hx'; injection Hx' as <-.
    f_equal.
    exact (utility_cell_clipped_base l x).
  - rewrite broadcast_shapes_comm in Hs.
    rewrite (construct_utility_mismatch L X Hs).
    apply construct_utility_mismatch; exact Hs.
Qed.

(** X7. A matrix is recovered from its two parts: with the clipped matrix
    as base, [construct_utility(L, reconstruct_X_from_L(L))] has the shape of
    [L] and equals [L] cell by cell (as numbers) wherever [L] is not NaN; a
    NaN cell of [L] gives [0.0]. *)
Theorem construct_utility_of_reconstruct (L : ndarray float64) :
  wf L = true ->
  exists Z,
    construct_utility L (reconstruct_X_from_L L) = Ok Z /\
    shape Z = shape L /\
    forall i j l, getitem L i j = Some l ->
      exists z,
        getitem Z i j = Some z /\
        (isnan l = false -> eqb z l = true) /\
        (isnan l = true -> z = zero).
Proof.
  intros HwL.
  set (X := reconstruct_X_from_L L).
  assert (Hs : shape L = shape X) by reflexivity.
  pose proof (construct_utility_same_shape L X Hs) as HZ.
  eexists; split; [exact HZ|].
  split; [reflexivity|].
  intros i j l Hl.
  destruct (getitem_bounds L i j l HwL Hl) as [Hi Hj].
  assert (Hx : getitem X i j = Some (maximum_cell zero l)).
  { unfold X, reconstruct_X_from_L, maximum_scalar.
    rewrite getitem_map_cells, Hl; reflexivity. }
  exists (utility_cell l (maximum_cell zero l)).
  split.
  - exact (getitem_construct_utility L X _ i j l _ Hs HZ Hi Hj Hl Hx).
  - apply utility_cell_of_clipped.
Qed.

(** ** Reconstruction beyond finite cells *)

(** X8. Clipping is monotone: if [L1] is cell by cell at most [L2] then
    [reconstruct_X_from_L(L1)] is cell by cell at most
    [reconstruct_X_from_L(L2)]. *)
Theorem reconstruct_X_from_L_monotone (L1 L2 : ndarray float64) :
  (forall i j l1 l2, getitem L1 i j = Some l1 -> getitem L2 i j = Some l2 ->
                     le l1 l2 = true) ->
  forall i j r1 r2,
    getitem (reconstruct_X_from_L L1) i j = Some r1 ->
    getitem (reconstruct_X_from_L L2) i j = Some r2 ->
    le r1 r2 = true.
Proof.
  intros Hle i j r1 r2.
  unfold reconstruct_X_from_L, maximum_scalar.
  rewrite !getitem_map_cells.
  destruct (getitem L1 i j) as [l1|] eqn:E1; [|discriminate].
  destruct (getitem L2 i j) as [l2|] eqn:E2; [|discriminate].
  cbn [option_map]; intros [= <-] [= <-].
  apply maximum_cell_zero_mono.
  exact (Hle i j l1 l2 E1 E2).
Qed.

(** X9. What [reconstruct_X_from_L] does outside the finite cells: a NaN
    cell stays NaN and no other cell becomes NaN, [+inf] stays [+inf],
    [-inf] becomes [0.0], and every cell that is not NaN is at most its
    image. *)
Theorem reconstruct_X_from_L_nonfinite (L : ndarray float64) (i j : nat)
        (l : float64) :
  getitem L i j = Some l ->
  exists r,
    getitem (reconstruct_X_from_L L) i j = Some r /\
    isnan r = isnan l /\
    (l = S754_infinity false -> r = S754_infinity false) /\
    (l = S754_infinity true -> r = zero) /\
    (isnan l = false -> le l r = true).
Proof.
  intros Hl.
  exists (maximum_cell zero l).
  split.
  - unfold reconstruct_X_from_L, maximum_scalar.
    rewrite getitem_map_cells, Hl; reflexivity.
  - apply maximum_cell_zero_nonfinite.
Qed.

(** ** Momentum and NaN *)

(** X10. [apply_momentum] never hides a NaN: a cell of the result is NaN as
    soon as [beta], or the cell of [current_X] or of [previous_X] it is
    computed from (at the broadcast indices), is NaN. *)
Theorem apply_momentum_propagates_nan
        (current_X previous_X R : ndarray float64) (beta : float64) :
  wf current_X = true -> wf previous_X = true ->
  apply_momentum current_X previous_X beta = Ok R ->
  forall i j c p, i < nrows R -> j < ncols R ->
    getitem current_X (broadcast_index (nrows current_X) i)
                      (broadcast_index (ncols current_X) j) = Some c ->
    getitem previous_X (broadcast_index (nrows previous_X) i)
                       (broadcast_index (ncols previous_X) j) = Some p ->
    isnan c || isnan p || isnan beta = true ->
    getitem R i j = Some S754_nan.
Proof.
  intros Hwc Hwp HR i j c p Hi Hj Hc Hp Hnan.
  destruct (apply_momentum_ok_cells current_X previous_X R beta Hwc Hwp HR)
    as [_ [Hs _]].
  destruct (apply_momentum_broadcast_cells current_X previous_X beta (shape R)
              Hwc Hwp Hs) as [R' [HR' [_ [_ Hcells]]]].
  rewrite HR in HR'; injection HR' as <-.
  destruct (Hcells i j Hi Hj) as [c' [p' [Hc' [Hp' Hr]]]].
  assert (c' = c) by congruence; assert (p' = p) by congruence; subst c' p'.
  rewrite Hr; f_equal.
  apply momentum_cell_nan; exact Hnan.
Qed.

(** ** The momentum step at [beta = 0.0] and on a stationary sequence *)

Lemma binary_round_aux_not_nan (s : bool) (z e : Z) (l : location) :
  (0 <= z)%Z -> (e <= fexp prec emax (Zdigits2 z + e))%Z ->
  isnan (binary_round_aux prec emax s z e l) = false.
Proof.
  intros Hz He.
  unfold binary_round_aux.
  pose proof (shr_fexp_spec z e l Hz He) as H1; cbv zeta in H1.
  destruct (shr_fexp prec emax z e l) as [mrs' e'].
  cbn [fst snd] in H1; destruct H1 as [He' [Hm' Hd']].
  set (m1 := round_nearest_even (shr_m mrs') (loc_of_shr_record mrs')).
  assert (Hm1 : (0 <= m1 /\ Zdigits2 (shr_m mrs') <= Zdigits2 m1)%Z).
  { unfold m1.
    destruct (round_nearest_even_cases (shr_m mrs') (loc_of_shr_record mrs'))
      as [-> | ->]; [lia|].
    pose proof (Zdigits2_succ (shr_m mrs') Hm'); lia. }
  destruct Hm1 as [Hm1 Hd1].
  assert (He1 : (e' <= fexp prec emax (Zdigits2 m1 + e'))%Z).
  { rewrite He' at 1. apply fexp_mono; lia. }
  pose proof (shr_fexp_spec m1 e' loc_Exact Hm1 He1) as H2; cbv zeta in H2.
  destruct (shr_fexp prec emax m1 e' loc_Exact) as [mrs'' e''].
  cbn [fst snd] in H2; destruct H2 as [_ [Hm'' _]].
  destruct (shr_m mrs'') as [|m|m]; try reflexivity; [|lia].
  destruct (Z.leb e'' (emax - prec)); reflexivity.
Qed.

Lemma binary_round_not_nan (s : bool) (m : positive) (e : Z) :
  isnan (binary_round prec emax s m e) = false.
Proof.
  unfold binary_round, shl_align.
  destruct (fexp prec emax (Zpos (digits2_pos m) + e) - e)%Z as [|d|d] eqn:Hd.
  - apply binary_round_aux_not_nan; [lia|]. cbn [Zdigits2]; lia.
  - apply binary_round_aux_not_nan; [lia|]. cbn [Zdigits2]; lia.
  - apply binary_round_aux_not_nan; [lia|].
    cbn [Zdigits2].
    rewrite digits2_pos_iter_xO.
    replace (Zpos (digits2_pos m) + Zpos d +
             fexp prec emax (Zpos (digits2_pos m) + e))%Z
      with (Zpos (digits2_pos m) + e)%Z by lia.
    lia.
Qed.

(** The difference of two finite floats is finite or, on overflow, an
    infinity; it is never NaN. *)
Lemma sub_finite_not_nan (x y : float64) :
  isfinite x = true -> isfinite y = true -> isnan (sub x y) = false.
Proof.
  destruct x as [sx|sx| |sx mx ex], y as [sy|sy| |sy my ey];
    try discriminate; intros _ _;
    try reflexivity; try (destruct sx, sy; reflexivity).
  unfold sub, SFsub, binary_normalize.
  destruct (_ - _)%Z; [reflexivity | apply binary_round_not_nan ..].
Qed.

Lemma momentum_cell_beta_zero_cases (c p : float64) :
  isfinite c = true -> isfinite p = true ->
  (isfinite (sub c p) = true /\
   eqb (Float64.add c (mul zero (sub c p))) c = true) \/
  (isfinite (sub c p) = false /\
   Float64.add c (mul zero (sub c p)) = S754_nan).
Proof.
  intros Hc Hp.
  pose proof (sub_finite_not_nan c p Hc Hp) as Hn.
  destruct (isfinite (sub c p)) eqn:Hf.
  - left; split; [reflexivity|].
    apply momentum_cell_beta_zero; assumption.
  - right; split; [reflexivity|].
    destruct (sub c p); try discriminate.
    destruct c; try discriminate; reflexivity.
Qed.

(** X11. With [beta = 0.0] on same-shaped matrices of finite cells, a cell
    of the result is either equal (as a number) to the cell of [current_X],
    when [current - previous] is finite there, or NaN, when that difference
    overflows; it is never another number. *)
Theorem apply_momentum_beta_zero_cases
        (current_X previous_X : ndarray float64) :
  wf current_X = true -> wf previous_X = true ->
  shape current_X = shape previous_X ->
  all_cells isfinite current_X = true ->
  all_cells isfinite previous_X = true ->
  exists R,
    apply_momentum current_X previous_X zero = Ok R /\
    forall i j, i < nrows current_X -> j < ncols current_X ->
      exists c p r,
        getitem current_X i j = Some c /\ getitem previous_X i j = Some p /\
        getitem R i j = Some r /\
        ((isfinite (sub c p) = true /\ eqb r c = true) \/
         (isfinite (sub c p) = false /\ r = S754_nan)).
Proof.
  intros Hwc Hwp Hs Hfc Hfp.
  destruct (same_shape_bounds current_X previous_X Hs) as [Hr Hc].
  pose proof (apply_momentum_same_shape current_X previous_X zero Hs) as HR.
  eexists; split; [exact HR|].
  intros i j Hi Hj.
  destruct (getitem_in_range current_X i j Hwc Hi Hj) as [c Hcell].
  destruct (getitem_in_range previous_X i j Hwp) as [p Hp]; [lia | lia |].
  exists c, p, (Float64.add c (mul zero (sub c p))).
  split; [exact Hcell|]. split; [exact Hp|].
  split.
  - exact (getitem_apply_momentum current_X previous_X _ zero i j c p
             Hs HR Hcell Hp).
  - apply momentum_cell_beta_zero_cases.
    + exact (getitem_all_cells isfinite current_X i j c Hfc Hcell).
    + exact (getitem_all_cells isfinite previous_X i j p Hfp Hp).
Qed.

Lemma momentum_cell_stationary_nonfinite (m beta : float64) :
  isfinite m = false -> Float64.add m (mul beta (sub m m)) = S754_nan.
Proof.
  intros Hm.
  assert (Hs : sub m m = S754_nan)
    by (destruct m as [?|[|]| |? ? ?]; try discriminate; reflexivity).
  rewrite Hs.
  assert (Hmul : mul beta S754_nan = S754_nan) by (destruct beta; reflexivity).
  rewrite Hmul; destruct m; reflexivity.
Qed.

(** X12. Off the finite cells a stationary sequence is not a fixed point:
    where [M] holds an infinity or a NaN, [apply_momentum(M, M, beta)] holds
    NaN, whatever [beta]. *)
Theorem apply_momentum_stationary_nonfinite (M : ndarray float64)
        (beta : float64) (i j : nat) (m : float64) :
  getitem M i j = Some m -> isfinite m = false ->
  exists R, apply_momentum M M beta = Ok R /\ getitem R i j = Some S754_nan.
Proof.
  intros Hm Hinf.
  pose proof (apply_momentum_same_shape M M beta eq_refl) as HR.
  eexists; split; [exact HR|].
  rewrite (getitem_apply_momentum M M _ beta i j m m eq_refl HR Hm Hm).
  f_equal; apply momentum_cell_stationary_nonfinite; exact Hinf.
Qed.

(** ** Instances *)

Lemma construct_utility_broadcast_cells_witness :
  let X := mat 1 2 [[f_1; zero]] in
  wf L0 = true /\ wf X = true /\
  broadcast_shapes (shape L0) (shape X) = Some (2, 2) /\
  exists Z, construct_utility L0 X = Ok Z /\ shape Z = (2, 2) /\
            getitem Z 1 0 = Some f_1 /\ getitem Z 1 1 = Some zero.
Proof.
  cbv zeta.
  split; [reflexivity|]. split; [reflexivity|]. split; [reflexivity|].
  destruct (construct_utility_broadcast_cells L0 (mat 1 2 [[f_1; zero]]) (2, 2)
              eq_refl eq_refl eq_refl) as [Z [HZ [Hshape [_ Hcells]]]].
  exists Z.
  split; [exact HZ|]. split; [exact Hshape|].
  split.
  - destruct (Hcells 1 0) as [l [x [Hl [Hx Hz]]]]; [simpl; lia | simpl; lia |].
    injection Hl as <-; injection Hx as <-.
    rewrite Hz; reflexivity.
  - destruct (Hcells 1 1) as [l [x [Hl [Hx Hz]]]]; [simpl; lia | simpl; lia |].
    injection Hl as <-; injection Hx as <-.
    rewrite Hz; reflexivity.
Defined.

Lemma apply_momentum_broadcast_cells_witness :
  let previous_X := mat 1 1 [[f_1]] in
  wf L0 = true /\ wf previous_X = true /\
  broadcast_shapes (shape L0) (shape previous_X) = Some (2, 2) /\
  exists R, apply_momentum L0 previous_X f_0_5 = Ok R /\ shape R = (2, 2) /\
            getitem R 1 1 =
              Some (Float64.add f_1_9 (mul f_0_5 (sub f_1_9 f_1))).
Proof.
  cbv zeta.
  split; [reflexivity|]. split; [reflexivity|]. split; [reflexivity|].
  destruct (apply_momentum_broadcast_cells L0 (mat 1 1 [[f_1]]) f_0_5 (2, 2)
              eq_refl eq_refl eq_refl) as [R [HR [Hshape [_ Hcells]]]].
  exists R.
  split; [exact HR|]. split; [exact Hshape|].
  destruct (Hcells 1 1) as [c [p [Hc [Hp Hr]]]]; [simpl; lia | simpl; lia |].
  injection Hc as <-; injection Hp as <-.
  exact Hr.
Defined.

Lemma construct_utility_never_nan_witness :
  let L := mat 1 2 [[S754_nan; f_m0_3]] in
  let X := mat 1 2 [[zero; S754_nan]] in
  let Z := mat 1 2 [[zero; f_m0_3]] in
  wf L = true /\ wf X = true /\ construct_utility L X = Ok Z /\
  forall i j z, getitem Z i j = Some z -> isnan z = false.
Proof.
  cbv zeta.
  split; [reflexivity|]. split; [reflexivity|]. split; [reflexivity|].
  exact (construct_utility_never_nan
           (mat 1 2 [[S754_nan; f_m0_3]]) (mat 1 2 [[zero; S754_nan]])
           (mat 1 2 [[zero; f_m0_3]]) eq_refl eq_refl eq_refl).
Defined.

Lemma construct_utility_le_base_witness :
  let Z := mat 2 2 [[f_1; f_m0_3]; [zero; f_2]] in
  wf L0 = true /\ wf X0 = true /\
  all_cells (fun x => ge x zero) X0 = true /\
  construct_utility L0 X0 = Ok Z /\
  getitem Z 0 1 = Some f_m0_3 /\
  exists x, getitem X0 0 1 = Some x /\ le f_m0_3 x = true.
Proof.
  cbv zeta.
  split; [reflexivity|]. split; [reflexivity|]. split; [reflexivity|].
  split; [reflexivity|]. split; [reflexivity|].
  exact (construct_utility_le_base L0 X0 (mat 2 2 [[f_1; f_m0_3]; [zero; f_2]])
           eq_refl eq_refl eq_refl eq_refl 0 1 f_m0_3 eq_refl).
Defined.

Lemma construct_utility_idempotent_witness :
  let Z := mat 2 2 [[f_1; f_m0_3]; [zero; f_2]] in
  wf L0 = true /\ wf X0 = true /\ construct_utility L0 X0 = Ok Z /\
  construct_utility Z X0 = Ok Z.
Proof.
  cbv zeta.
  split; [reflexivity|]. split; [reflexivity|]. split; [reflexivity|].
  exact (construct_utility_idempotent L0 X0
           (mat 2 2 [[f_1; f_m0_3]; [zero; f_2]]) eq_refl eq_refl eq_refl).
Defined.

Lemma construct_utility_clipped_base_witness :
  let X := mat 2 2 [[f_1; f_m1]; [S754_nan; f_2]] in
  wf L0 = true /\ wf X = true /\
  construct_utility L0 (reconstruct_X_from_L X) = construct_utility L0 X.
Proof.
  cbv zeta.
  split; [reflexivity|]. split; [reflexivity|].
  exact (construct_utility_clipped_base L0
           (mat 2 2 [[f_1; f_m1]; [S754_nan; f_2]]) eq_refl eq_refl).
Defined.

Lemma construct_utility_of_reconstruct_witness :
  wf L0 = true /\
  exists Z, construct_utility L0 (reconstruct_X_from_L L0) = Ok Z /\
            shape Z = (2, 2) /\
            exists z, getitem Z 0 1 = Some z /\ eqb z f_m0_3 = true.
Proof.
  split; [reflexivity|].
  destruct (construct_utility_of_reconstruct L0 eq_refl)
    as [Z [HZ [Hshape Hcells]]].
  exists Z.
  split; [exact HZ|]. split; [exact Hshape|].
  destruct (Hcells 0 1 f_m0_3 eq_refl) as [z [Hz [E _]]].
  exists z; split; [exact Hz | exact (E eq_refl)].
Defined.

Lemma reconstruct_X_from_L_monotone_witness :
  let L1 := mat 1 1 [[f_m1]] in
  let L2 := mat 1 1 [[f_0_5]] in
  (forall i j l1 l2, getitem L1 i j = Some l1 -> getitem L2 i j = Some l2 ->
                     le l1 l2 = true) /\
  le zero f_0_5 = true.
Proof.
  cbv zeta.
  assert (H : forall i j l1 l2,
             getitem (mat 1 1 [[f_m1]]) i j = Some l1 ->
             getitem (mat 1 1 [[f_0_5]]) i j = Some l2 -> le l1 l2 = true).
  { intros [|[|i]] j l1 l2 H1 H2; try discriminate.
    destruct j as [|[|j]]; try discriminate.
    injection H1 as <-; injection H2 as <-; reflexivity. }
  split; [exact H|].
  exact (reconstruct_X_from_L_monotone (mat 1 1 [[f_m1]]) (mat 1 1 [[f_0_5]])
           H 0 0 zero f_0_5 eq_refl eq_refl).
Defined.

Lemma reconstruct_X_from_L_nonfinite_witness :
  let L := mat 1 3 [[S754_nan; S754_infinity false; S754_infinity true]] in
  getitem L 0 2 = Some (S754_infinity true) /\
  exists r, getitem (reconstruct_X_from_L L) 0 2 = Some r /\ r = zero.
Proof.
  cbv zeta.
  split; [reflexivity|].
  destruct (reconstruct_X_from_L_nonfinite
              (mat 1 3 [[S754_nan; S754_infinity false; S754_infinity true]])
              0 2 (S754_infinity true) eq_refl)
    as [r [Hr [_ [_ [Hinf _]]]]].
  exists r; split; [exact Hr | exact (Hinf eq_refl)].
Defined.

Lemma apply_momentum_propagates_nan_witness :
  let current_X := mat 1 2 [[f_2; f_2]] in
  let previous_X := mat 1 2 [[S754_nan; f_1]] in
  let R := mat 1 2 [[S754_nan; f_2_5]] in
  wf current_X = true /\ wf previous_X = true /\
  apply_momentum current_X previous_X f_0_5 = Ok R /\
  isnan f_2 || isnan S754_nan || isnan f_0_5 = true /\
  getitem R 0 0 = Some S754_nan.
Proof.
  cbv zeta.
  split; [reflexivity|]. split; [reflexivity|].
  assert (HR : apply_momentum (mat 1 2 [[f_2; f_2]])
                 (mat 1 2 [[S754_nan; f_1]]) f_0_5 =
               Ok (mat 1 2 [[S754_nan; f_2_5]])) by (vm_compute; reflexivity).
  split; [exact HR|]. split; [reflexivity|].
  refine (apply_momentum_propagates_nan (mat 1 2 [[f_2; f_2]])
            (mat 1 2 [[S754_nan; f_1]]) (mat 1 2 [[S754_nan; f_2_5]]) f_0_5
            eq_refl eq_refl HR 0 0 f_2 S754_nan _ _ eq_refl eq_refl eq_refl);
    simpl; lia.
Defined.

Lemma apply_momentum_beta_zero_cases_witness :
  let current_X := mat 1 2 [[f_max; f_2]] in
  let previous_X := mat 1 2 [[f_mmax; f_1]] in
  wf current_X = true /\ wf previous_X = true /\
  shape current_X = shape previous_X /\
  all_cells isfinite current_X = true /\
  all_cells isfinite previous_X = true /\
  exists R, apply_momentum current_X previous_X zero = Ok R /\
            getitem R 0 0 = Some S754_nan /\
            exists r, getitem R 0 1 = Some r /\ eqb r f_2 = true.
Proof.
  cbv zeta.
  split; [reflexivity|]. split; [reflexivity|]. split; [reflexivity|].
  split; [reflexivity|]. split; [reflexivity|].
  destruct (apply_momentum_beta_zero_cases
              (mat 1 2 [[f_max; f_2]]) (mat 1 2 [[f_mmax; f_1]])
              eq_refl eq_refl eq_refl eq_refl eq_refl) as [R [HR Hcells]].
  exists R; split; [exact HR|].
  split.
  - destruct (Hcells 0 0) as [c [p [r [Hc [Hp [Hr [[Hf _]|[_ E]]]]]]]];
      [simpl; lia | simpl; lia | |].
    + injection Hc as <-; injection Hp as <-.
      vm_compute in Hf; discriminate.
    + rewrite Hr, E; reflexivity.
  - destruct (Hcells 0 1) as [c [p [r [Hc [Hp [Hr [[_ E]|[Hf _]]]]]]]];
      [simpl; lia | simpl; lia | |].
    + injection Hc as <-.
      exists r; auto.
    + injection Hc as <-; injection Hp as <-.
      vm_compute in Hf; discriminate.
Defined.

Lemma apply_momentum_stationary_nonfinite_witness :
  let M := mat 1 2 [[f_1; S754_infinity false]] in
  getitem M 0 1 = Some (S754_infinity false) /\
  isfinite (S754_infinity false) = false /\
  exists R, apply_momentum M M f_0_5 = Ok R /\ getitem R 0 1 = Some S754_nan.
Proof.
  cbv zeta.
  split; [reflexivity|]. split; [reflexivity|].
  exact (apply_momentum_stationary_nonfinite
           (mat 1 2 [[f_1; S754_infinity false]]) f_0_5 0 1
           (S754_infinity false) eq_refl eq_refl).
Defined.
